(** * Admission control of the products/reviews API

    A shallow embedding of the request-admission core of the service:
    the [rateLimit] middleware of [cmd/api/middleware.go] (client registry,
    per-client token bucket, stale-entry sweeper), the shutdown hand-off of
    [serve] in [cmd/api/server.go], and the sort-column check of the
    [Filters] type of package [data].

    Conventions.  A [time.Time] is an integer count of nanoseconds on the
    process clock and a [time.Duration] an integer count of nanoseconds.
    Token counts and rates are [float64] in the program; they are idealised
    here as exact rationals ([Q]), compared with [==].  The Go map
    [map[string]*client] is a [gmap string client]: every pointer stored in
    the map is reachable through the map only, so the record is stored by
    value and a write through the pointer is an [alter]/[insert]. *)

From Stdlib Require Import ZArith QArith Qminmax Lqa Lia Ascii String.
From stdpp Require Import gmap strings list fin_maps.

Local Open Scope Z_scope.

(** ** Package [time] *)

Module time.

Definition Nanosecond : Z := 1.
Definition Second : Z := 1000000000 * Nanosecond.
Definition Minute : Z := 60 * Second.

(** [time.Since(t)] evaluated when the clock reads [now]. *)
Definition Since (now t : Z) : Z := now - t.

(** A duration as a rational number of seconds. *)
Definition Seconds (d : Z) : Q := (inject_Z d / inject_Z Second)%Q.

End time.

(** ** Package [rate]: the token bucket *)

Module rate.

Record Limiter : Type := mkLimiter {
  capacity   : Z;   (* burst *)
  refillRate : Q;   (* tokens per second *)
  tokens     : Q;
  lastRefill : Z
}.

(** Modelled from the spec: [rate.NewLimiter] of golang.org/x/time/rate is
    imported by middleware.go and is not under src/.  Section 4.1: the
    initial token count is the capacity, so the full burst is available
    to a brand-new client.  The refill timestamp starts at the zero time. *)
Definition NewLimiter (r : Q) (b : Z) : Limiter :=
  {| capacity := b; refillRate := r; tokens := inject_Z b; lastRefill := 0 |}.

(** The token count after refilling up to the instant [now]:
    [elapsed = max(0, now - lastRefill)],
    [min(capacity, tokens + elapsed * refillRate)]. *)
Definition refill (lim : Limiter) (now : Z) : Q :=
  let elapsed := Z.max 0 (now - lastRefill lim) in
  Qmin (inject_Z (capacity lim))
       (tokens lim + time.Seconds elapsed * refillRate lim)%Q.

(** Modelled from the spec: the bucket arithmetic of golang.org/x/time/rate
    is not under src/.  Section 4.1, [TryConsume(state, now, n)]: refill,
    set [lastRefill = now], then if [tokens >= n] subtract [n] and return
    true, else return false. *)
Definition TryConsume (lim : Limiter) (now : Z) (n : Z) : bool * Limiter :=
  let tokens' := refill lim now in
  if Qle_bool (inject_Z n) tokens' then
    (true,
     {| capacity := capacity lim; refillRate := refillRate lim;
        tokens := (tokens' - inject_Z n)%Q; lastRefill := now |})
  else
    (false,
     {| capacity := capacity lim; refillRate := refillRate lim;
        tokens := tokens'; lastRefill := now |}).

(** [lim.Allow()] is [TryConsume] of one token at the current instant. *)
Definition Allow (lim : Limiter) (now : Z) : bool * Limiter :=
  TryConsume lim now 1.

(** The bounds a well-formed bucket keeps. *)
Definition bounded (lim : Limiter) : Prop :=
  (0 <= tokens lim)%Q /\ (tokens lim <= inject_Z (capacity lim))%Q.

End rate.

(** ** The middleware of [cmd/api/middleware.go] *)

(** Modelled from the spec: the struct behind [a.config.limiter] is declared
    in a file that is not under src/.  Section 6 lists its fields:
    [enabled: bool], [burst: int] (bucket capacity), [rps: float] (refill
    rate); the Makefile passes them as -limiter-enabled, -limiter-burst and
    -limiter-rps. *)
Record limiterConfig : Type := mkLimiterConfig {
  enabled : bool;
  burst   : Z;
  rps     : Q
}.

(** [type client struct { limiter *rate.Limiter; lastSeen time.Time }] *)
Record client : Type := mkClient {
  limiter  : rate.Limiter;
  lastSeen : Z
}.

(** What the handler returned by [rateLimit] does with one request. *)
Inductive Response : Type :=
  | serverErrorResponse        (* a.serverErrorResponse(w, r, err); return *)
  | rateLimitExceededResponse  (* a.rateLimitExceededResponse(w, r); return *)
  | nextServeHTTP              (* next.ServeHTTP(w, r) *)
  | nilDereference.            (* clients[ip] is nil when it is written through *)

Global Instance Response_eq_dec : EqDecision Response.
Proof. solve_decision. Defined.

(** [&client{limiter: rate.NewLimiter(2, 5)}] *)
Definition newClient : client :=
  {| limiter := rate.NewLimiter 2 5; lastSeen := 0 |}.

(** The registry invariant: every bucket in it is one made by the handler
    (capacity and rate of [newClient]) and holds a token count within its
    bounds. *)
Definition registry_bounded (clients : gmap string client) : Prop :=
  forall ip c, clients !! ip = Some c ->
    rate.bounded (limiter c) /\
    rate.capacity (limiter c) = rate.capacity (limiter newClient) /\
    rate.refillRate (limiter c) = rate.refillRate (limiter newClient).

(** The code of the handler between [mu.Lock()] and [mu.Unlock()], for the
    host [ip] while the clock reads [now]: the response the handler goes on
    to give, and the registry it leaves.  The clock is read twice in there,
    by [time.Now()] and inside [Allow]; the section is a few instructions
    long and both readings are the one instant [now]. *)
Definition locked_section (now : Z) (ip : string)
    (clients : gmap string client) : Response * gmap string client :=
  (* _, found := clients[ip]; if !found { clients[ip] = &client{...} } *)
  let clients1 :=
    match clients !! ip with
    | Some _ => clients
    | None => <[ip := newClient]> clients
    end in
  (* clients[ip].lastSeen = time.Now() *)
  let clients2 :=
    alter (fun c => {| limiter := limiter c; lastSeen := now |}) ip clients1 in
  (* if !clients[ip].limiter.Allow() { ... } *)
  match clients2 !! ip with
  | None => (nilDereference, clients2)
  | Some c =>
    let '(ok, lim) := rate.Allow (limiter c) now in
    let clients3 :=
      <[ip := {| limiter := lim; lastSeen := lastSeen c |}]> clients2 in
    if negb ok then (rateLimitExceededResponse, clients3)
    else (nextServeHTTP, clients3)
  end.

(** The pause between two passes of the cleanup goroutine,
    [time.Sleep(time.Minute)], and the idle time after which it deletes an
    entry, [3 * time.Minute]. *)
Definition sweepInterval : Z := time.Minute.
Definition staleThreshold : Z := 3 * time.Minute.

(** One pass of the cleanup goroutine, run while the clock reads [now]:
    [for ip, client := range clients
       { if time.Since(client.lastSeen) > 3*time.Minute { delete(clients, ip) } }].
    Deleting the entry being visited is allowed while ranging over a Go
    map, and every entry present at the start is visited once; the pass
    holds the mutex and its clock readings are the one instant [now]. *)
Definition sweep (now : Z) (clients : gmap string client) : gmap string client :=
  map_fold
    (fun ip c acc =>
       if 3 * time.Minute <? time.Since now (lastSeen c)
       then delete ip acc else acc)
    clients clients.

(** What can happen to the registry: a request is handled, or the cleanup
    goroutine makes a pass.  The mutex orders these. *)
Inductive Event : Type :=
  | Request (RemoteAddr : string) (now : Z)
  | Sweep (now : Z).






(** The state two request goroutines share: the mutex [mu] (true when
    held) and the map [clients]. *)
Record shared : Type := mkShared {
  mu      : bool;
  clients : gmap string client
}.

(** Where a request goroutine stands in the handler. *)
Inductive pc : Type :=
  | pcEntry                          (* the handler has just been called *)
  | pcLock (ip : string)             (* at mu.Lock() *)
  | pcLookup (ip : string)           (* at _, found := clients[ip] *)
  | pcFound (ip : string) (found : bool)  (* at if !found { ... } *)
  | pcTouch (ip : string)            (* at clients[ip].lastSeen = time.Now() *)
  | pcAllow (ip : string)            (* at clients[ip].limiter.Allow() *)
  | pcUnlock (ip : string) (ok : bool)    (* at mu.Unlock() *)
  | pcDone (r : Response).           (* the response is decided *)

(** The registry a goroutine has built when it stands at [p] inside the
    locked section, having taken the mutex on the registry [base]. *)
Definition inside (now : Z) (ip : string) (base : gmap string client)
    (p : pc) (cl : gmap string client) : Prop :=
  match p with
  | pcLookup ip' => ip' = ip /\ cl = base
  | pcFound ip' found =>
    ip' = ip /\ cl = base /\ found = bool_decide (is_Some (base !! ip))
  | pcTouch ip' =>
    ip' = ip /\
    cl = match base !! ip with
         | Some _ => base
         | None => <[ip := newClient]> base
         end
  | pcAllow ip' =>
    ip' = ip /\
    cl = alter (fun c => {| limiter := limiter c; lastSeen := now |}) ip
               match base !! ip with
               | Some _ => base
               | None => <[ip := newClient]> base
               end
  | pcUnlock ip' ok =>
    ip' = ip /\
    (if negb ok then rateLimitExceededResponse else nextServeHTTP, cl)
      = locked_section now ip base
  | _ => False
  end.

(** How far a goroutine has come: it has not taken the mutex yet, it holds
    it (taken on the registry [base]), or it has released it. *)
Inductive phase : Type :=
  | Before
  | Inside (base : gmap string client)
  | After (base : gmap string client).

Definition in_phase (now : Z) (ip : string) (ph : phase) (p : pc)
    (cl : gmap string client) : Prop :=
  match ph with
  | Before => p = pcEntry \/ p = pcLock ip
  | Inside base => inside now ip base p cl
  | After base => p = pcDone (locked_section now ip base).1
  end.

(** The phases two goroutines can be in together, with the mutex [m] and
    the registry [cl] that go with them, when they started on [c0]: they
    are never both inside, and each has worked on what the other left. *)
Definition coherent (now1 : Z) (ip1 : string) (now2 : Z) (ip2 : string)
    (c0 : gmap string client) (ph1 ph2 : phase) (m : bool)
    (cl : gmap string client) : Prop :=
  match ph1, ph2 with
  | Before, Before => m = false /\ cl = c0
  | Inside b1, Before => m = true /\ b1 = c0
  | Before, Inside b2 => m = true /\ b2 = c0
  | After b1, Before =>
    m = false /\ b1 = c0 /\ cl = (locked_section now1 ip1 b1).2
  | Before, After b2 =>
    m = false /\ b2 = c0 /\ cl = (locked_section now2 ip2 b2).2
  | After b1, Inside b2 =>
    m = true /\ b1 = c0 /\ b2 = (locked_section now1 ip1 b1).2
  | Inside b1, After b2 =>
    m = true /\ b2 = c0 /\ b1 = (locked_section now2 ip2 b2).2
  | After b1, After b2 =>
    m = false /\
    ((b1 = c0 /\ b2 = (locked_section now1 ip1 b1).2 /\
      cl = (locked_section now2 ip2 b2).2) \/
     (b2 = c0 /\ b1 = (locked_section now2 ip2 b2).2 /\
      cl = (locked_section now1 ip1 b1).2))
  | Inside _, Inside _ => False
  end.

(** Whether a goroutine at [p] is between [mu.Lock()] and [mu.Unlock()]. *)
Definition in_locked_section (p : pc) : bool :=
  match p with
  | pcLookup _ | pcFound _ _ | pcTouch _ | pcAllow _ | pcUnlock _ _ => true
  | pcEntry | pcLock _ | pcDone _ => false
  end.

(** The most statements a goroutine at [p] still has to execute. *)
Definition steps_left (p : pc) : nat :=
  match p with
  | pcEntry => 7
  | pcLock _ => 6
  | pcLookup _ => 5
  | pcFound _ _ => 4
  | pcTouch _ => 3
  | pcAllow _ => 2
  | pcUnlock _ _ => 1
  | pcDone _ => 0
  end.

(** The invariant of two goroutines that started on the registry [c0]. *)
Definition sys_invariant (now1 : Z) (ip1 : string) (now2 : Z) (ip2 : string)
    (c0 : gmap string client) (st : pc * pc * shared) : Prop :=
  exists ph1 ph2,
    in_phase now1 ip1 ph1 st.1.1 (clients st.2) /\
    in_phase now2 ip2 ph2 st.1.2 (clients st.2) /\
    coherent now1 ip1 now2 ip2 c0 ph1 ph2 (mu st.2) (clients st.2).

Section Middleware.

(** [net.SplitHostPort] belongs to the Go standard library; the middleware
    only looks at the host it returns and at whether it failed. *)
Variable SplitHostPort : string -> option (string * string).

(** The handler returned by [rateLimit], run on a request with remote
    address [RemoteAddr] while the clock reads [now], on the registry
    [clients]. *)
Definition rateLimit (cfg : limiterConfig) (now : Z) (RemoteAddr : string)
    (clients : gmap string client) : Response * gmap string client :=
  if enabled cfg then
    match SplitHostPort RemoteAddr with
    | None => (serverErrorResponse, clients)
    | Some (ip, _) => locked_section now ip clients
    end
  else (nextServeHTTP, clients).

Definition step (cfg : limiterConfig) (ev : Event)
    (clients : gmap string client) : list Response * gmap string client :=
  match ev with
  | Request addr now =>
    let '(r, clients') := rateLimit cfg now addr clients in ([r], clients')
  | Sweep now => ([], sweep now clients)
  end.

(** The responses and the final registry of a sequence of events. *)
Fixpoint run (cfg : limiterConfig) (evs : list Event)
    (clients : gmap string client) : list Response * gmap string client :=
  match evs with
  | [] => ([], clients)
  | ev :: evs' =>
    let '(rs, clients') := step cfg ev clients in
    let '(rs', clients'') := run cfg evs' clients' in
    (rs ++ rs', clients'')
  end.



(** One statement of the handler, executed by a goroutine that serves a
    request with remote address [RemoteAddr] and reads [now] from the
    clock.  [None]: the goroutine cannot move (it waits for the mutex, or
    it has finished). *)
Definition thread_step (cfg : limiterConfig) (now : Z) (RemoteAddr : string)
    (p : pc) (s : shared) : option (pc * shared) :=
  match p with
  | pcEntry =>
    if enabled cfg then
      match SplitHostPort RemoteAddr with
      | None => Some (pcDone serverErrorResponse, s)
      | Some (ip, _) => Some (pcLock ip, s)
      end
    else Some (pcDone nextServeHTTP, s)
  | pcLock ip =>
    if mu s then None
    else Some (pcLookup ip, {| mu := true; clients := clients s |})
  | pcLookup ip =>
    Some (pcFound ip (bool_decide (is_Some (clients s !! ip))), s)
  | pcFound ip found =>
    if negb found
    then Some (pcTouch ip,
               {| mu := mu s; clients := <[ip := newClient]> (clients s) |})
    else Some (pcTouch ip, s)
  | pcTouch ip =>
    Some (pcAllow ip,
          {| mu := mu s;
             clients :=
               alter (fun c => {| limiter := limiter c; lastSeen := now |})
                     ip (clients s) |})
  | pcAllow ip =>
    match clients s !! ip with
    | None => Some (pcDone nilDereference, s)
    | Some c =>
      let '(ok, lim) := rate.Allow (limiter c) now in
      Some (pcUnlock ip ok,
            {| mu := mu s;
               clients :=
                 <[ip := {| limiter := lim; lastSeen := lastSeen c |}]>
                   (clients s) |})
    end
  | pcUnlock ip ok =>
    Some (pcDone (if negb ok then rateLimitExceededResponse else nextServeHTTP),
          {| mu := false; clients := clients s |})
  | pcDone _ => None
  end.

(** Two goroutines serving two requests over the shared state; either may
    take the next step. *)
Inductive sys_step (cfg : limiterConfig)
    (now1 : Z) (addr1 : string) (now2 : Z) (addr2 : string) :
    pc * pc * shared -> pc * pc * shared -> Prop :=
  | step_first p1 p2 s p1' s' :
      thread_step cfg now1 addr1 p1 s = Some (p1', s') ->
      sys_step cfg now1 addr1 now2 addr2 (p1, p2, s) (p1', p2, s')
  | step_second p1 p2 s p2' s' :
      thread_step cfg now2 addr2 p2 s = Some (p2', s') ->
      sys_step cfg now1 addr1 now2 addr2 (p1, p2, s) (p1, p2', s').

End Middleware.

(** A stand-in for [net.SplitHostPort] used in the examples: the host is
    what precedes the last colon, the port what follows it; an address
    without a colon is an error. *)
Fixpoint splitLastColon (hostport : string) : option (string * string) :=
  match hostport with
  | EmptyString => None
  | String c rest =>
    match splitLastColon rest with
    | Some (host, port) => Some (String c host, port)
    | None => if Ascii.eqb c ":"%char then Some (EmptyString, rest) else None
    end
  end.

(** ** The shutdown hand-off of [serve] in [cmd/api/server.go] *)

Module server.

(** The error values [serve] tells apart; [nil] is [None]. *)
Inductive error : Type :=
  | ErrServerClosed            (* http.ErrServerClosed *)
  | DeadlineExceeded           (* the error of an expired context *)
  | OtherError (msg : string). (* any other error of ListenAndServe *)

Global Instance error_eq_dec : EqDecision error.
Proof. solve_decision. Defined.

(** [errors.Is(err, http.ErrServerClosed)] *)
Definition isErrServerClosed (err : error) : bool :=
  bool_decide (err = ErrServerClosed).

(** [context.WithTimeout(context.Background(), 30*time.Second)] *)
Definition shutdownTimeout : Z := 30 * time.Second.

(** Modelled from the spec: [http.Server.Shutdown] and the context package
    are library code that is not under src/.  Section 4.5: the drain ends
    when all in-flight work completes (outcome: success) or when the bound
    elapses first (outcome: timeout error).  [drain] is the time the
    in-flight work needs to finish. *)
Definition Shutdown (timeout drain : Z) : option error :=
  if drain <=? timeout then None else Some DeadlineExceeded.

(** The goroutine started by [serve]. *)
Inductive listener : Type :=
  | lWaiting                        (* s := <-quit *)
  | lShuttingDown                   (* inside apiServer.Shutdown(ctx) *)
  | lSending (err : option error)   (* at shutdownError <- ... *)
  | lExited.

(** The main control flow of [serve]. *)
Inductive main : Type :=
  | mListening                      (* inside apiServer.ListenAndServe() *)
  | mReceiving                      (* at err = <-shutdownError *)
  | mReturned (err : option error).

(** [err := apiServer.ListenAndServe()
     if !errors.Is(err, http.ErrServerClosed) { return err }] *)
Definition afterListen (err : error) : main :=
  if negb (isErrServerClosed err) then mReturned (Some err) else mReceiving.

(** [err = <-shutdownError; if err != nil { return err }; ...; return nil] *)
Definition afterReceive (err : option error) : main :=
  match err with
  | Some e => mReturned (Some e)
  | None => mReturned None
  end.

Inductive label : Type :=
  | Signal                              (* SIGINT or SIGTERM arrives *)
  | ListenReturned (err : error)        (* ListenAndServe returns *)
  | ShutdownReturned (err : option error)
  | Delivered (err : option error).     (* a value crosses shutdownError *)

(** The steps of the two control flows.  [shutdownError] is unbuffered:
    the send and the receive happen together.  ListenAndServe returns
    [ErrServerClosed] only once Shutdown has been called. *)
Inductive serve_step (drain : Z) :
    main * listener -> label -> main * listener -> Prop :=
  | step_signal m :
      serve_step drain (m, lWaiting) Signal (m, lShuttingDown)
  | step_closed l :
      l <> lWaiting ->
      serve_step drain (mListening, l) (ListenReturned ErrServerClosed)
                 (afterListen ErrServerClosed, l)
  | step_listen_error l err :
      err <> ErrServerClosed ->
      serve_step drain (mListening, l) (ListenReturned err) (afterListen err, l)
  | step_shutdown m :
      serve_step drain (m, lShuttingDown)
                 (ShutdownReturned (Shutdown shutdownTimeout drain))
                 (m, lSending (Shutdown shutdownTimeout drain))
  | step_deliver err :
      serve_step drain (mReceiving, lSending err) (Delivered err)
                 (afterReceive err, lExited).

Inductive serve_run (drain : Z) :
    main * listener -> list label -> main * listener -> Prop :=
  | run_done st : serve_run drain st [] st
  | run_step st l st' tr st'' :
      serve_step drain st l st' ->
      serve_run drain st' tr st'' ->
      serve_run drain st (l :: tr) st''.

Definition isDelivered (l : label) : bool :=
  match l with Delivered _ => true | _ => false end.

(** How many values crossed [shutdownError] in a trace. *)
Definition deliveries (tr : list label) : nat :=
  length (filter (fun l => isDelivered l = true) tr).

End server.

(** ** Package [validator] *)

Module validator.

(** Modelled from the spec: package internal/validator belongs to this
    repository and is not under src/.  It is modelled after the way
    [ValidateFilters] and the handlers use it: [Check(ok, key, message)]
    records [message] under [key] when [ok] is false and no message is
    recorded for [key] yet; [PermittedValue(value, list...)] reports whether
    [value] is one of the listed values; [IsEmpty] reports that nothing was
    recorded. *)
Record Validator : Type := mkValidator {
  Errors : gmap string string
}.

Definition New : Validator := {| Errors := ∅ |}.

Definition IsEmpty (v : Validator) : bool :=
  bool_decide (size (Errors v) = 0%nat).

Definition AddError (v : Validator) (key message : string) : Validator :=
  match Errors v !! key with
  | Some _ => v
  | None => {| Errors := <[key := message]> (Errors v) |}
  end.

Definition Check (v : Validator) (acceptable : bool) (key message : string) :
    Validator :=
  if negb acceptable then AddError v key message else v.

Fixpoint PermittedValue (value : string) (permittedValues : list string) : bool :=
  match permittedValues with
  | [] => false
  | p :: rest => if String.eqb value p then true else PermittedValue value rest
  end.

End validator.

(** ** Package [data]: the [Filters] type *)

(** [strings.HasPrefix] and [strings.TrimPrefix] of the Go standard library. *)
Definition HasPrefix (s prefix : string) : bool := String.prefix prefix s.

Definition TrimPrefix (s prefix : string) : string :=
  if HasPrefix s prefix
  then String.substring (String.length prefix)
                        (String.length s - String.length prefix) s
  else s.

Module data.

Record Filters : Type := mkFilters {
  Page         : Z;
  PageSize     : Z;
  Sort         : string;
  SortSafeList : list string
}.

Definition ValidateFilters (v : validator.Validator) (f : Filters) :
    validator.Validator :=
  let v := validator.Check v (0 <? Page f) "page" "must be greater than zero" in
  let v := validator.Check v (Page f <=? 500) "page" "must be a maximum of 500" in
  let v := validator.Check v (0 <? PageSize f) "page_size" "must be greater than zero" in
  let v := validator.Check v (PageSize f <=? 100) "page_size" "must be a maximum of 100" in
  validator.Check v (validator.PermittedValue (Sort f) (SortSafeList f))
                  "sort" "invalid sort value".

(** The loop of [sortColumn] over the safe list; [None] is the panic. *)
Fixpoint sortColumn_from (sort : string) (safeValues : list string) :
    option string :=
  match safeValues with
  | [] => None
  | safeValue :: rest =>
    if String.eqb sort safeValue then Some (TrimPrefix sort "-")
    else sortColumn_from sort rest
  end.

Definition sortColumn (f : Filters) : option string :=
  sortColumn_from (Sort f) (SortSafeList f).

Definition sortDirection (f : Filters) : string :=
  if HasPrefix (Sort f) "-" then "DESC" else "ASC".

(** The ORDER BY clause both [GetAll] methods format into their query:
    [fmt.Sprintf("ORDER BY %s %s, id ASC", filters.sortColumn(),
    filters.sortDirection())].  [None]: [sortColumn] panicked. *)
Definition orderBy (f : Filters) : option string :=
  match sortColumn f with
  | None => None
  | Some column =>
    Some ("ORDER BY " ++ column ++ " " ++ sortDirection f ++ ", id ASC")%string
  end.

(** [func (f Filters) limit() int] *)
Definition limit (f : Filters) : Z := PageSize f.

(** Go's [int] is 64 bits wide here; [wrapInt] is the value an arithmetic
    result has once it is stored in one. *)
Definition wrapInt (z : Z) : Z := (z + 2 ^ 63) mod 2 ^ 64 - 2 ^ 63.

(** [func (f Filters) offset() int]: [(f.Page - 1) * f.PageSize]. *)
Definition offset (f : Filters) : Z :=
  wrapInt (wrapInt (Page f - 1) * PageSize f).

Module Metadata.

Record t : Type := mk {
  CurrentPage  : Z;
  PageSize     : Z;
  FirstPage    : Z;
  LastPage     : Z;
  TotalRecords : Z
}.

(** [Metadata{}] *)
Definition zero : t :=
  {| CurrentPage := 0; PageSize := 0; FirstPage := 0; LastPage := 0;
     TotalRecords := 0 |}.

End Metadata.

(** [calculateMetaData]; [None] is the run-time panic of an integer
    division by zero.  Go's [/] on integers truncates toward zero. *)
Definition calculateMetaData (totalRecords currentPage pageSize : Z) :
    option Metadata.t :=
  if totalRecords =? 0 then Some Metadata.zero
  else if pageSize =? 0 then None
  else
    Some {| Metadata.CurrentPage := currentPage;
            Metadata.PageSize := pageSize;
            Metadata.FirstPage := 1;
            Metadata.LastPage :=
              wrapInt (Z.quot (wrapInt (wrapInt (totalRecords + pageSize) - 1))
                              pageSize);
            Metadata.TotalRecords := totalRecords |}.

(** [type Review struct]; [CreatedAt] is a [time.Time]. *)
Record Review : Type := mkReview {
  ID           : Z;
  ProductID    : Z;
  Content      : string;
  Author       : string;
  Rating       : Z;
  HelpfulCount : Z;
  CreatedAt    : Z;
  Version      : Z
}.

(** [ValidateReview]; [len] of a Go string is its length in bytes. *)
Definition ValidateReview (v : validator.Validator) (review : Review) :
    validator.Validator :=
  let v := validator.Check v (negb (String.eqb (Content review) ""))
                           "content" "must be provided" in
  let v := validator.Check v (String.length (Content review) <=? 500)%nat
                           "content" "must not exceed 500 characters" in
  let v := validator.Check v (negb (String.eqb (Author review) ""))
                           "author" "must be provided" in
  let v := validator.Check v (String.length (Author review) <=? 100)%nat
                           "author" "must not exceed 100 characters" in
  validator.Check v ((1 <=? Rating review) && (Rating review <=? 5))
                  "rating" "must be between 1 and 5".

(** The errors the models return: [ErrRecordNotFound], or whatever the
    database driver reported. *)
Inductive dbError : Type :=
  | ErrRecordNotFound
  | ErrDriver (msg : string).

(** [totalRecords := 0] and the loop over the rows: every [rows.Scan]
    stores the window count of its row in [totalRecords]. *)
Definition scanTotal {A : Type} (rows : list (Z * A)) : Z :=
  fold_left (fun _ row => row.1) rows 0.

Inductive GetAllResult (A : Type) : Type :=
  | GetAllPanic
  | GetAllError
  | GetAllRows (rows : list A) (metadata : Metadata.t).

Arguments GetAllPanic {A}.
Arguments GetAllError {A}.
Arguments GetAllRows {A} rows metadata.

(** [GetAll] of [ReviewModel] and of [ProductModel].  [query] is
    [DB.QueryContext] with the statement's other arguments fixed: given
    the ORDER BY clause formatted into the statement, the limit and the
    offset, it answers with the rows, each with its window count, or with
    [None] when the query, a Scan or [rows.Err()] fails. *)
Definition GetAll {A : Type} (query : string -> Z -> Z -> option (list (Z * A)))
    (filters : Filters) : GetAllResult A :=
  match orderBy filters with
  | None => GetAllPanic
  | Some order =>
    match query order (limit filters) (offset filters) with
    | None => GetAllError
    | Some rows =>
      match calculateMetaData (scanTotal rows) (Page filters) (PageSize filters) with
      | None => GetAllPanic
      | Some metadata => GetAllRows (map snd rows) metadata
      end
    end
  end.

(** [ReviewModel]: what the database answers to the four statements.
    [Insert] returns the id, the creation time and the version it scans
    into the review, [Update] the new version. *)
Record ReviewModel : Type := mkReviewModel {
  Insert : Review -> dbError + (Z * Z * Z);
  Get    : Z -> Z -> dbError + Review;
  Update : Review -> dbError + Z;
  Delete : Z -> Z -> option dbError;
  Query  : Z -> string -> Z -> Z -> option (list (Z * Review))
}.

End data.

(** ** Package [main]: the handlers of the reviews and the product list *)

Module api.

Import validator data.

(** What a handler answers first: one of the error helpers, [a.writeJSON]
    with a review, a message or a list, or a panic that leaves the
    handler. *)
Inductive Reply (A : Type) : Type :=
  | notFoundResponse
  | badRequestResponse
  | failedValidationResponse (errors : gmap string string)
  | serverErrorResponse
  | writeReview (status : Z) (review : Review)
  | writeMessage (status : Z) (message : string)
  | writeList (status : Z) (rows : list A) (metadata : Metadata.t)
  | panics.

Arguments notFoundResponse {A}.
Arguments badRequestResponse {A}.
Arguments failedValidationResponse {A} errors.
Arguments serverErrorResponse {A}.
Arguments writeReview {A} status review.
Arguments writeMessage {A} status message.
Arguments writeList {A} status rows metadata.
Arguments panics {A}.

Definition StatusOK : Z := 200.
Definition StatusCreated : Z := 201.

(** The optional fields of the body of an update. *)
Record updateInput : Type := mkUpdateInput {
  inContent      : option string;
  inAuthor       : option string;
  inRating       : option Z;
  inHelpfulCount : option Z
}.

Section Handlers.

(** The request, and [a.readIDParam]: [None] is its error. *)
Variable Request : Type.
Variable readIDParam : Request -> option Z.

Variable m : ReviewModel.

(** [createReviewHandler]; [input] is what [a.readJSON] decoded, [None]
    when it failed. *)
Definition createReviewHandler (r : Request)
    (input : option (string * string * Z)) : Reply Review :=
  match readIDParam r with
  | None => notFoundResponse
  | Some productID =>
    match input with
    | None => badRequestResponse
    | Some (content, author, rating) =>
      let review :=
        {| ID := 0; ProductID := productID; Content := content;
           Author := author; Rating := rating; HelpfulCount := 0;
           CreatedAt := 0; Version := 0 |} in
      let v := ValidateReview validator.New review in
      if negb (IsEmpty v) then failedValidationResponse (Errors v)
      else
        match Insert m review with
        | inl _ => serverErrorResponse
        | inr (id, createdAt, version) =>
          writeReview StatusCreated
            {| ID := id; ProductID := productID; Content := content;
               Author := author; Rating := rating; HelpfulCount := 0;
               CreatedAt := createdAt; Version := version |}
        end
    end
  end.

Definition displayReviewHandler (r : Request) : Reply Review :=
  match readIDParam r with
  | None => notFoundResponse
  | Some productID =>
    match readIDParam r with
    | None => notFoundResponse
    | Some reviewID =>
      match Get m productID reviewID with
      | inl ErrRecordNotFound => notFoundResponse
      | inl _ => serverErrorResponse
      | inr review => writeReview StatusOK review
      end
    end
  end.

Definition updateReviewHandler (r : Request) (input : option updateInput) :
    Reply Review :=
  match readIDParam r with
  | None => notFoundResponse
  | Some productID =>
    match readIDParam r with
    | None => notFoundResponse
    | Some reviewID =>
      match Get m productID reviewID with
      | inl ErrRecordNotFound => notFoundResponse
      | inl _ => serverErrorResponse
      | inr review =>
        match input with
        | None => badRequestResponse
        | Some input =>
          let review :=
            {| ID := ID review; ProductID := ProductID review;
               Content := default (Content review) (inContent input);
               Author := default (Author review) (inAuthor input);
               Rating := default (Rating review) (inRating input);
               HelpfulCount := default (HelpfulCount review) (inHelpfulCount input);
               CreatedAt := CreatedAt review; Version := Version review |} in
          let v := ValidateReview validator.New review in
          if negb (IsEmpty v) then failedValidationResponse (Errors v)
          else
            match Update m review with
            | inl _ => serverErrorResponse
            | inr version =>
              writeReview StatusOK
                {| ID := ID review; ProductID := ProductID review;
                   Content := Content review; Author := Author review;
                   Rating := Rating review; HelpfulCount := HelpfulCount review;
                   CreatedAt := CreatedAt review; Version := version |}
            end
        end
      end
    end
  end.

Definition deleteReviewHandler (r : Request) : Reply Review :=
  match readIDParam r with
  | None => notFoundResponse
  | Some productID =>
    match readIDParam r with
    | None => notFoundResponse
    | Some reviewID =>
      match Delete m productID reviewID with
      | Some ErrRecordNotFound => notFoundResponse
      | Some _ => serverErrorResponse
      | None => writeMessage StatusOK "review successfully deleted"
      end
    end
  end.

(** The part the three list handlers share from [data.ValidateFilters]
    on. *)
Definition listWith {A : Type} (query : string -> Z -> Z -> option (list (Z * A)))
    (v : Validator) (filters : Filters) : Reply A :=
  let v := ValidateFilters v filters in
  if negb (IsEmpty v) then failedValidationResponse (Errors v)
  else
    match GetAll query filters with
    | GetAllPanic => panics
    | GetAllError => serverErrorResponse
    | GetAllRows rows metadata => writeList StatusOK rows metadata
    end.

(** [listReviewsForProductHandler]; [v] is the validator after the two
    calls of [a.getSingleIntegerParameter], [page] and [pageSize] what they
    returned, [sort] what [a.getSingleQueryParameter] returned. *)
Definition listReviewsForProductHandler (r : Request) (v : Validator)
    (page pageSize : Z) (sort : string) : Reply Review :=
  match readIDParam r with
  | None => notFoundResponse
  | Some productID =>
    listWith (Query m productID) v
      {| Page := page; PageSize := pageSize; Sort := sort;
         SortSafeList := ["id"; "rating"; "-id"; "-rating"] |}
  end.

(** [listAllReviewsHandler]: [a.reviewModel.GetAll(0, filters)]. *)
Definition listAllReviewsHandler (v : Validator)
    (page pageSize : Z) (sort : string) : Reply Review :=
  listWith (Query m 0) v
    {| Page := page; PageSize := pageSize; Sort := sort;
       SortSafeList := ["id"; "rating"; "-id"; "-rating"] |}.

(** [listProductsHandler]; [query] is the products statement with the
    name and the category of the request. *)
Definition listProductsHandler {Product : Type}
    (query : string -> Z -> Z -> option (list (Z * Product)))
    (v : Validator) (page pageSize : Z) (sort : string) : Reply Product :=
  listWith query v
    {| Page := page; PageSize := pageSize; Sort := sort;
       SortSafeList := ["id"; "name"; "-id"; "-name"; "price"; "-price";
                        "average_rating"; "-average_rating"] |}.

End Handlers.

End api.

(** * Properties *)

(** ** The token bucket *)

Section Bucket.

Local Open Scope Q_scope.

Lemma Seconds_nonneg (d : Z) : (0 <= d)%Z -> 0 <= time.Seconds d.
Proof.
  intros Hd. unfold time.Seconds, time.Second, time.Nanosecond.
  apply Qle_shift_div_l; [reflexivity |].
  rewrite Qmult_0_l. change 0 with (inject_Z 0). by rewrite <- Zle_Qle.
Qed.

Lemma Seconds_0 : time.Seconds 0 == 0.
Proof. reflexivity. Qed.

Lemma refill_le_capacity (lim : rate.Limiter) (now : Z) :
  rate.refill lim now <= inject_Z (rate.capacity lim).
Proof. unfold rate.refill. apply Q.le_min_l. Qed.

Lemma refill_nonneg (lim : rate.Limiter) (now : Z) :
  0 <= rate.refillRate lim -> (0 <= rate.capacity lim)%Z ->
  0 <= rate.tokens lim -> 0 <= rate.refill lim now.
Proof.
  intros Hr Hc Ht. unfold rate.refill. apply Q.min_glb.
  - change 0 with (inject_Z 0). by rewrite <- Zle_Qle.
  - pose proof (Seconds_nonneg (Z.max 0 (now - rate.lastRefill lim))
                               (Z.le_max_l _ _)) as Hs.
    nra.
Qed.

(** Refilling never takes tokens away from a bucket within its capacity,
    whatever the two timestamps are. *)
Lemma refill_ge_tokens (lim : rate.Limiter) (now : Z) :
  0 <= rate.refillRate lim ->
  rate.tokens lim <= inject_Z (rate.capacity lim) ->
  rate.tokens lim <= rate.refill lim now.
Proof.
  intros Hr Ht. unfold rate.refill. apply Q.min_glb; [done |].
  pose proof (Seconds_nonneg (Z.max 0 (now - rate.lastRefill lim))
                             (Z.le_max_l _ _)) as Hs.
  nra.
Qed.

(** With no time elapsed the refill leaves the count as it is. *)
Lemma refill_same_instant (lim : rate.Limiter) (now : Z) :
  (now <= rate.lastRefill lim)%Z ->
  rate.tokens lim <= inject_Z (rate.capacity lim) ->
  rate.refill lim now == rate.tokens lim.
Proof.
  intros Hnow Ht. unfold rate.refill.
  replace (Z.max 0 (now - rate.lastRefill lim)) with 0%Z by lia.
  rewrite Q.min_r; rewrite Seconds_0; lra.
Qed.

Lemma refill_NewLimiter (r : Q) (b now : Z) :
  0 <= r -> rate.refill (rate.NewLimiter r b) now == inject_Z b.
Proof.
  intros Hr. unfold rate.refill, rate.NewLimiter; simpl.
  pose proof (Seconds_nonneg (Z.max 0 (now - 0)) (Z.le_max_l _ _)) as Hs.
  apply Q.min_l. nra.
Qed.

Lemma TryConsume_capacity (lim : rate.Limiter) (now n : Z) :
  rate.capacity (rate.TryConsume lim now n).2 = rate.capacity lim.
Proof. unfold rate.TryConsume. by destruct (Qle_bool _ _). Qed.

Lemma TryConsume_refillRate (lim : rate.Limiter) (now n : Z) :
  rate.refillRate (rate.TryConsume lim now n).2 = rate.refillRate lim.
Proof. unfold rate.TryConsume. by destruct (Qle_bool _ _). Qed.

Lemma TryConsume_lastRefill (lim : rate.Limiter) (now n : Z) :
  rate.lastRefill (rate.TryConsume lim now n).2 = now.
Proof. unfold rate.TryConsume. by destruct (Qle_bool _ _). Qed.

Lemma TryConsume_allowed (lim : rate.Limiter) (now n : Z) :
  inject_Z n <= rate.refill lim now ->
  rate.TryConsume lim now n =
    (true, {| rate.capacity := rate.capacity lim;
              rate.refillRate := rate.refillRate lim;
              rate.tokens := rate.refill lim now - inject_Z n;
              rate.lastRefill := now |}).
Proof.
  intros H. unfold rate.TryConsume.
  apply Qle_bool_iff in H. by rewrite H.
Qed.

Lemma TryConsume_denied (lim : rate.Limiter) (now n : Z) :
  rate.refill lim now < inject_Z n ->
  rate.TryConsume lim now n =
    (false, {| rate.capacity := rate.capacity lim;
               rate.refillRate := rate.refillRate lim;
               rate.tokens := rate.refill lim now;
               rate.lastRefill := now |}).
Proof.
  intros H. unfold rate.TryConsume.
  destruct (Qle_bool (inject_Z n) (rate.refill lim now)) eqn:E; [| done].
  apply Qle_bool_iff in E. lra.
Qed.

(** The bounds are kept by every consumption of a non-negative amount. *)
Lemma TryConsume_bounded (lim : rate.Limiter) (now n : Z) :
  0 <= rate.refillRate lim -> (0 <= n)%Z ->
  rate.bounded lim -> rate.bounded (rate.TryConsume lim now n).2.
Proof.
  intros Hr Hn [Hlo Hhi].
  assert (0 <= rate.capacity lim)%Z as Hc.
  { rewrite Zle_Qle. change (inject_Z 0) with 0. lra. }
  pose proof (refill_le_capacity lim now) as Hle.
  pose proof (refill_nonneg lim now Hr Hc Hlo) as Hge.
  assert (0 <= inject_Z n) as HnQ.
  { change 0 with (inject_Z 0). by rewrite <- Zle_Qle. }
  unfold rate.bounded, rate.TryConsume.
  destruct (Qle_bool (inject_Z n) (rate.refill lim now)) eqn:E; simpl.
  - apply Qle_bool_iff in E. lra.
  - lra.
Qed.

Lemma NewLimiter_bounded (r : Q) (b : Z) :
  (0 <= b)%Z -> rate.bounded (rate.NewLimiter r b).
Proof.
  intros Hb. unfold rate.bounded, rate.NewLimiter; simpl. split; [| lra].
  change 0 with (inject_Z 0). by rewrite <- Zle_Qle.
Qed.

End Bucket.

(** C5, as amended: when [TryConsume] denies a request, that is when the
    bucket holds fewer than [n] tokens after the refill, it returns false,
    subtracts nothing from the refilled count and still sets [lastRefill]
    to [now].  The count it stores is the count after the refill: for a
    bucket within its capacity and a rate that is not negative it is never
    below the count before the call, and it is the count before the call
    exactly when the refill added nothing (no time elapsed, or a rate of
    zero) or the bucket was full already. *)
Theorem TryConsume_deny (lim : rate.Limiter) (now n : Z) :
  (rate.refill lim now < inject_Z n)%Q ->
  (rate.TryConsume lim now n).1 = false /\
  rate.tokens (rate.TryConsume lim now n).2 = rate.refill lim now /\
  rate.lastRefill (rate.TryConsume lim now n).2 = now /\
  ((0 <= rate.refillRate lim)%Q ->
   (rate.tokens lim <= inject_Z (rate.capacity lim))%Q ->
   (rate.tokens lim <= rate.tokens (rate.TryConsume lim now n).2)%Q /\
   ((rate.tokens (rate.TryConsume lim now n).2 == rate.tokens lim)%Q <->
    (time.Seconds (Z.max 0 (now - rate.lastRefill lim)) * rate.refillRate lim
       == 0)%Q \/
    (rate.tokens lim == inject_Z (rate.capacity lim))%Q)).
Proof.
  intros Hlt. rewrite (TryConsume_denied lim now n Hlt).
  cbn [fst snd rate.tokens rate.lastRefill].
  split; [done |]. split; [done |]. split; [done |].
  intros Hr Hcap. split; [by apply refill_ge_tokens |].
  unfold rate.refill.
  pose proof (Seconds_nonneg (Z.max 0 (now - rate.lastRefill lim))
                             (Z.le_max_l _ _)) as Hs.
  assert (0 <= time.Seconds (Z.max 0 (now - rate.lastRefill lim))
               * rate.refillRate lim)%Q as Hx
    by (by apply Qmult_le_0_compat).
  set (x := (time.Seconds (Z.max 0 (now - rate.lastRefill lim))
             * rate.refillRate lim)%Q) in *.
  destruct (Q.min_spec (inject_Z (rate.capacity lim)) (rate.tokens lim + x))
    as [[Hlt' ->] | [Hle ->]].
  - split; [intros H; right; lra | intros [H | H]; lra].
  - split; [intros H; left; lra | intros [H | H]; lra].
Qed.

(** C5 as stated fails: a denied call does change the token count.  A
    bucket of capacity 5 and rate 2 that holds 1/2 token is asked for one
    token 0.1 s after its last refill; the call is denied and the count it
    leaves is 7/10. *)
Lemma TryConsume_deny_count_changes :
  (rate.TryConsume (rate.mkLimiter 5 2 (1 # 2) 0) 100000000 1).1 = false /\
  (rate.tokens (rate.TryConsume (rate.mkLimiter 5 2 (1 # 2) 0) 100000000 1).2
     == 7 # 10)%Q /\
  ((rate.tokens (rate.TryConsume (rate.mkLimiter 5 2 (1 # 2) 0) 100000000 1).2
      == rate.tokens (rate.mkLimiter 5 2 (1 # 2) 0))%Q -> False).
Proof.
  split; [by vm_compute |]. split; [by vm_compute |].
  vm_compute. discriminate.
Qed.

Lemma TryConsume_deny_witness :
  (rate.TryConsume (rate.mkLimiter 5 2 (1 # 2) 0) 100000000 1).1 = false /\
  rate.tokens (rate.TryConsume (rate.mkLimiter 5 2 (1 # 2) 0) 100000000 1).2
    = rate.refill (rate.mkLimiter 5 2 (1 # 2) 0) 100000000 /\
  rate.lastRefill (rate.TryConsume (rate.mkLimiter 5 2 (1 # 2) 0) 100000000 1).2
    = 100000000 /\
  (1 # 2 <= rate.tokens
              (rate.TryConsume (rate.mkLimiter 5 2 (1 # 2) 0) 100000000 1).2)%Q /\
  ((rate.tokens (rate.TryConsume (rate.mkLimiter 5 2 (1 # 2) 0) 100000000 1).2
      == 1 # 2)%Q <->
   (time.Seconds (Z.max 0 (100000000 - 0)) * 2 == 0)%Q \/ (1 # 2 == inject_Z 5)%Q).
Proof.
  destruct (TryConsume_deny (rate.mkLimiter 5 2 (1 # 2) 0) 100000000 1)
    as (H1 & H2 & H3 & H4).
  - by vm_compute.
  - destruct H4 as [H4 H5]; [by vm_compute | by vm_compute |].
    exact (conj H1 (conj H2 (conj H3 (conj H4 H5)))).
Defined.

(** ** The handler *)

Section Handler.

Variable SplitHostPort : string -> option (string * string).

(** The locked section in one piece: the entry of [ip] (a new client when
    there is none) gets [lastSeen = now] and the bucket [Allow] leaves; the
    response follows what [Allow] returned. *)
Lemma locked_section_eq (now : Z) (ip : string) (clients : gmap string client) :
  locked_section now ip clients =
    let c0 := default newClient (clients !! ip) in
    let r := rate.Allow (limiter c0) now in
    (if r.1 then nextServeHTTP else rateLimitExceededResponse,
     <[ip := {| limiter := r.2; lastSeen := now |}]> clients).
Proof.
  unfold locked_section.
  destruct (clients !! ip) as [c|] eqn:Hc; simpl.
  - rewrite lookup_alter_eq, Hc; simpl.
    destruct (rate.Allow (limiter c) now) as [ok lim]; simpl.
    rewrite insert_alter_eq. by destruct ok.
  - rewrite lookup_alter_eq, lookup_insert_eq; simpl.
    destruct (rate.Allow _ now) as [ok lim]; simpl.
    rewrite insert_alter_eq, insert_insert_eq. by destruct ok.
Qed.

(** The handler never writes through a nil entry. *)
Lemma locked_section_no_nil (now : Z) (ip : string) (clients : gmap string client) :
  (locked_section now ip clients).1 <> nilDereference.
Proof. rewrite locked_section_eq; simpl. by destruct (rate.Allow _ _).1. Qed.

Lemma run_app (cfg : limiterConfig) (evs1 evs2 : list Event)
    (clients : gmap string client) :
  run SplitHostPort cfg (evs1 ++ evs2) clients =
    let r1 := run SplitHostPort cfg evs1 clients in
    let r2 := run SplitHostPort cfg evs2 r1.2 in
    (r1.1 ++ r2.1, r2.2).
Proof.
  revert clients. induction evs1 as [|ev evs1 IH]; intros clients; simpl.
  - by destruct (run SplitHostPort cfg evs2 clients).
  - destruct (step SplitHostPort cfg ev clients) as [rs clients'].
    rewrite IH; simpl.
    destruct (run SplitHostPort cfg evs1 clients') as [rs1 clients1]; simpl.
    destruct (run SplitHostPort cfg evs2 clients1) as [rs2 clients2]; simpl.
    by rewrite app_assoc.
Qed.

(** C4: with the limiter disabled every request is passed to the next
    handler and the registry is left as it was, for one request and for
    any number of them. *)
Theorem rateLimit_disabled (cfg : limiterConfig) :
  enabled cfg = false ->
  (forall now addr clients,
     rateLimit SplitHostPort cfg now addr clients = (nextServeHTTP, clients)) /\
  (forall (reqs : list (string * Z)) clients,
     run SplitHostPort cfg ((fun rq => Request rq.1 rq.2) <$> reqs) clients =
       (replicate (length reqs) nextServeHTTP, clients)).
Proof.
  intros Hoff.
  assert (forall now addr clients,
            rateLimit SplitHostPort cfg now addr clients = (nextServeHTTP, clients))
    as Hone.
  { intros now addr clients. unfold rateLimit. by rewrite Hoff. }
  split; [exact Hone |].
  induction reqs as [|[addr now] reqs IH]; intros clients; simpl; [done |].
  by rewrite Hone, IH.
Qed.

(** C7, as the code has it: with the limiter enabled, a request whose
    remote address cannot be split gets the server-error response, the
    next handler is not called, and the registry is left as it was. *)
Theorem rateLimit_bad_address (cfg : limiterConfig) (now : Z) (addr : string)
    (clients : gmap string client) :
  enabled cfg = true ->
  SplitHostPort addr = None ->
  rateLimit SplitHostPort cfg now addr clients = (serverErrorResponse, clients).
Proof. intros Hon Hbad. unfold rateLimit. by rewrite Hon, Hbad. Qed.

(** Every bucket the handler creates has capacity 5 and refill rate 2,
    whatever the configuration says. *)
Lemma rateLimit_new_bucket (cfg : limiterConfig) (now : Z) (addr ip port : string)
    (clients : gmap string client) :
  enabled cfg = true ->
  SplitHostPort addr = Some (ip, port) ->
  clients !! ip = None ->
  exists c, (rateLimit SplitHostPort cfg now addr clients).2 !! ip = Some c /\
            rate.capacity (limiter c) = 5 /\
            rate.refillRate (limiter c) = 2%Q.
Proof.
  intros Hon Hsplit Hnew. unfold rateLimit. rewrite Hon, Hsplit.
  rewrite locked_section_eq, Hnew; simpl. rewrite lookup_insert_eq.
  eexists; split; [done |]. simpl.
  unfold rate.Allow. by rewrite TryConsume_capacity, TryConsume_refillRate.
Qed.

End Handler.

Lemma rateLimit_disabled_witness :
  rateLimit splitLastColon (mkLimiterConfig false 5 2) 7 "10.0.0.1:4000" ∅ =
    (nextServeHTTP, ∅) /\
  run splitLastColon (mkLimiterConfig false 5 2)
      [Request "10.0.0.1:4000" 7; Request "10.0.0.1:4001" 7; Request "bad" 8] ∅ =
    ([nextServeHTTP; nextServeHTTP; nextServeHTTP], ∅).
Proof.
  destruct (rateLimit_disabled splitLastColon (mkLimiterConfig false 5 2) eq_refl)
    as [H1 H2].
  split; [apply H1 |].
  exact (H2 [("10.0.0.1:4000"%string, 7); ("10.0.0.1:4001"%string, 7);
             ("bad"%string, 8)] ∅).
Defined.

(** C7 as stated fails when the limiter is disabled: the address is not
    looked at and the request reaches the next handler. *)
Lemma rateLimit_bad_address_disabled :
  splitLastColon "10.0.0.1" = None /\
  (rateLimit splitLastColon (mkLimiterConfig false 5 2) 7 "10.0.0.1" ∅).1
    = nextServeHTTP /\
  (rateLimit splitLastColon (mkLimiterConfig false 5 2) 7 "10.0.0.1" ∅).1
    <> serverErrorResponse.
Proof. split; [reflexivity |]. split; [reflexivity | discriminate]. Qed.

Lemma rateLimit_bad_address_witness :
  rateLimit splitLastColon (mkLimiterConfig true 5 2) 7 "10.0.0.1" ∅ =
    (serverErrorResponse, ∅).
Proof.
  apply (rateLimit_bad_address splitLastColon (mkLimiterConfig true 5 2) 7
                               "10.0.0.1" ∅); reflexivity.
Defined.

(** C3 at a configuration with burst 10 and rps 4: the bucket created for
    the first request of a client has capacity 5 and refill rate 2. *)
Theorem rateLimit_ignores_config :
  let cfg := mkLimiterConfig true 10 4 in
  exists c,
    (rateLimit splitLastColon cfg 7 "10.0.0.1:4000" ∅).2 !! "10.0.0.1" = Some c /\
    rate.capacity (limiter c) = 5 /\ rate.capacity (limiter c) <> burst cfg /\
    (rate.refillRate (limiter c) == 2)%Q /\
    ~ (rate.refillRate (limiter c) == rps cfg)%Q.
Proof.
  intros cfg.
  destruct (rateLimit_new_bucket splitLastColon cfg 7 "10.0.0.1:4000"
              "10.0.0.1" "4000" ∅ eq_refl eq_refl (lookup_empty _))
    as (c & Hc & Hcap & Hrate).
  exists c. rewrite Hcap, Hrate. repeat split; try done.
Qed.

(** ** The cleanup goroutine *)

(** What a pass leaves under each key: nothing when the entry was idle for
    more than three minutes, the entry untouched otherwise. *)
Lemma lookup_sweep (now : Z) (clients : gmap string client) (ip : string) :
  sweep now clients !! ip =
    match clients !! ip with
    | Some c => if 3 * time.Minute <? time.Since now (lastSeen c)
                then None else Some c
    | None => None
    end.
Proof.
  unfold sweep.
  enough (forall acc : gmap string client,
            map_fold
              (fun ip c acc =>
                 if 3 * time.Minute <? time.Since now (lastSeen c)
                 then delete ip acc else acc) acc clients !! ip =
            match clients !! ip with
            | Some c => if 3 * time.Minute <? time.Since now (lastSeen c)
                        then None else acc !! ip
            | None => acc !! ip
            end) as Hgen.
  { rewrite Hgen. by destruct (clients !! ip). }
  intros acc.
  apply (map_fold_weak_ind
           (fun r (m : gmap string client) =>
              r !! ip = match m !! ip with
                        | Some c => if 3 * time.Minute <? time.Since now (lastSeen c)
                                    then None else acc !! ip
                        | None => acc !! ip
                        end)).
  - by rewrite lookup_empty.
  - intros k c m r Hk IH. destruct (decide (k = ip)) as [->|Hne].
    + rewrite lookup_insert_eq. rewrite Hk in IH.
      destruct (3 * time.Minute <? time.Since now (lastSeen c)).
      * by rewrite lookup_delete_eq.
      * done.
    + rewrite lookup_insert_ne by done.
      destruct (3 * time.Minute <? time.Since now (lastSeen c)).
      * by rewrite lookup_delete_ne.
      * done.
Qed.

(** C6: after a pass at time [now], an entry last seen more than the stale
    threshold ago is gone and an entry seen within the threshold is still
    there, unchanged; the threshold is three sweep intervals, three minutes. *)
Theorem sweep_removes_stale (now : Z) (clients : gmap string client)
    (ip : string) (c : client) :
  clients !! ip = Some c ->
  (staleThreshold < now - lastSeen c -> sweep now clients !! ip = None) /\
  (now - lastSeen c <= staleThreshold -> sweep now clients !! ip = Some c) /\
  staleThreshold = 3 * sweepInterval /\
  staleThreshold = 3 * 60 * time.Second.
Proof.
  intros Hc. rewrite lookup_sweep, Hc.
  unfold staleThreshold, sweepInterval, time.Since.
  repeat split.
  - intros Hstale. apply Z.ltb_lt in Hstale. by rewrite Hstale.
  - intros Hfresh. apply Z.ltb_ge in Hfresh. by rewrite Hfresh.
Qed.

(** A pass only deletes: whatever is in the registry afterwards was there
    before, with the same contents. *)
Lemma sweep_subseteq (now : Z) (clients : gmap string client) (ip : string)
    (c : client) :
  sweep now clients !! ip = Some c -> clients !! ip = Some c.
Proof.
  rewrite lookup_sweep. destruct (clients !! ip) as [c'|]; [| done].
  by destruct (3 * time.Minute <? time.Since now (lastSeen c')).
Qed.

Lemma sweep_removes_stale_witness :
  let old := {| limiter := rate.NewLimiter 2 5; lastSeen := 0 |} in
  let new := {| limiter := rate.NewLimiter 2 5; lastSeen := 100 * time.Second |} in
  let clients : gmap string client := <["10.0.0.1" := old]> {["10.0.0.2" := new]} in
  sweep (181 * time.Second) clients !! "10.0.0.1" = None /\
  sweep (181 * time.Second) clients !! "10.0.0.2" = Some new.
Proof.
  intros old new clients. split.
  - refine (proj1 (sweep_removes_stale (181 * time.Second) clients
                     "10.0.0.1" old _) _); reflexivity.
  - refine (proj1 (proj2 (sweep_removes_stale (181 * time.Second) clients
                            "10.0.0.2" new _)) _); [reflexivity | discriminate].
Defined.

(** ** Bursts and bounds *)

Section Registry.

Variable SplitHostPort : string -> option (string * string).

Lemma newClient_bounded : rate.bounded (limiter newClient).
Proof. by apply NewLimiter_bounded. Qed.

Lemma locked_section_bounded (now : Z) (ip : string)
    (clients : gmap string client) :
  registry_bounded clients ->
  registry_bounded (locked_section now ip clients).2.
Proof.
  intros Hreg k c. rewrite locked_section_eq; simpl.
  assert (rate.bounded (limiter (default newClient (clients !! ip))) /\
          rate.capacity (limiter (default newClient (clients !! ip)))
            = rate.capacity (limiter newClient) /\
          rate.refillRate (limiter (default newClient (clients !! ip)))
            = rate.refillRate (limiter newClient)) as (Hb & Hcap & Hrate).
  { destruct (clients !! ip) as [c0|] eqn:Hc0; simpl.
    - by apply (Hreg ip).
    - split; [apply newClient_bounded | done]. }
  destruct (decide (k = ip)) as [->|Hne].
  - rewrite lookup_insert_eq. intros [= <-]; simpl. unfold rate.Allow.
    rewrite TryConsume_capacity, TryConsume_refillRate.
    split; [| done]. apply TryConsume_bounded; [| lia | done].
    rewrite Hrate. done.
  - rewrite lookup_insert_ne by done. apply Hreg.
Qed.

Lemma rateLimit_bounded (cfg : limiterConfig) (now : Z) (addr : string)
    (clients : gmap string client) :
  registry_bounded clients ->
  registry_bounded (rateLimit SplitHostPort cfg now addr clients).2.
Proof.
  intros Hreg. unfold rateLimit.
  destruct (enabled cfg); [| done].
  destruct (SplitHostPort addr) as [[ip port]|]; [| done].
  by apply locked_section_bounded.
Qed.

Lemma sweep_bounded (now : Z) (clients : gmap string client) :
  registry_bounded clients -> registry_bounded (sweep now clients).
Proof. intros Hreg ip c Hc. apply (Hreg ip). by eapply sweep_subseteq. Qed.

Lemma run_bounded (cfg : limiterConfig) (evs : list Event)
    (clients : gmap string client) :
  registry_bounded clients ->
  registry_bounded (run SplitHostPort cfg evs clients).2.
Proof.
  revert clients. induction evs as [|ev evs IH]; intros clients Hreg; [done |].
  simpl. destruct (step SplitHostPort cfg ev clients) as [rs clients'] eqn:Hstep.
  assert (registry_bounded clients') as Hreg'.
  { destruct ev as [addr now|now]; simpl in Hstep.
    - pose proof (rateLimit_bounded cfg now addr clients Hreg) as H.
      destruct (rateLimit SplitHostPort cfg now addr clients); simpl in *.
      by injection Hstep as _ <-.
    - injection Hstep as _ <-. by apply sweep_bounded. }
  specialize (IH clients' Hreg').
  by destruct (run SplitHostPort cfg evs clients').
Qed.

(** C2: starting from the empty registry the handler is created with,
    after any sequence of requests and cleanup passes at any times, every
    client's token count is at least zero and at most the capacity of its
    bucket (which is 5). *)
Theorem tokens_within_bounds (cfg : limiterConfig) (evs : list Event)
    (ip : string) (c : client) :
  (run SplitHostPort cfg evs ∅).2 !! ip = Some c ->
  (0 <= rate.tokens (limiter c))%Q /\
  (rate.tokens (limiter c) <= inject_Z (rate.capacity (limiter c)))%Q /\
  rate.capacity (limiter c) = 5.
Proof.
  intros Hc.
  assert (registry_bounded (∅ : gmap string client)) as H0.
  { intros k c0. by rewrite lookup_empty. }
  destruct (run_bounded cfg evs ∅ H0 ip c Hc) as ([Hlo Hhi] & Hcap & _).
  done.
Qed.

(** One [Allow] at the instant [now] on a bucket that holds [S j] tokens
    once refilled: it succeeds and leaves [j]. *)
Lemma Allow_some_left (lim : rate.Limiter) (now : Z) (j : nat) :
  (rate.refill lim now == inject_Z (Z.of_nat (S j)))%Q ->
  (rate.Allow lim now).1 = true /\
  (rate.refill (rate.Allow lim now).2 now == inject_Z (Z.of_nat j))%Q.
Proof.
  intros Hlevel. unfold rate.Allow.
  pose proof (refill_le_capacity lim now) as Hcap.
  assert (inject_Z (Z.of_nat (S j)) == inject_Z (Z.of_nat j) + 1)%Q as HS.
  { rewrite Nat2Z.inj_succ. unfold Z.succ. by rewrite inject_Z_plus. }
  assert (0 <= inject_Z (Z.of_nat j))%Q as Hj.
  { change 0%Q with (inject_Z 0). rewrite <- Zle_Qle. lia. }
  rewrite TryConsume_allowed by (change (inject_Z 1) with 1%Q; lra).
  split; [done |]. simpl.
  rewrite refill_same_instant; simpl; [| lia |];
    change (inject_Z 1) with 1%Q; lra.
Qed.

(** One [Allow] at the instant [now] on a bucket that is empty once
    refilled: it fails and the bucket stays empty. *)
Lemma Allow_none_left (lim : rate.Limiter) (now : Z) :
  (rate.refill lim now == 0)%Q ->
  (rate.Allow lim now).1 = false /\
  (rate.refill (rate.Allow lim now).2 now == 0)%Q.
Proof.
  intros Hlevel. unfold rate.Allow.
  pose proof (refill_le_capacity lim now) as Hcap.
  rewrite TryConsume_denied by (change (inject_Z 1) with 1%Q; lra).
  split; [done |]. simpl.
  rewrite refill_same_instant; simpl; [done | lia | done].
Qed.

(** [n] requests of one host at one instant, when its bucket (a new one if
    the host is unknown) holds [j] tokens once refilled: the first [j] are
    passed on, the others refused. *)
Lemma burst_from_level (cfg : limiterConfig) (now : Z) (addr ip port : string)
    (n j : nat) (clients : gmap string client) :
  enabled cfg = true ->
  SplitHostPort addr = Some (ip, port) ->
  (rate.refill (limiter (default newClient (clients !! ip))) now
     == inject_Z (Z.of_nat j))%Q ->
  (run SplitHostPort cfg (replicate n (Request addr now)) clients).1 =
    replicate (n `min` j) nextServeHTTP
      ++ replicate (n - j) rateLimitExceededResponse.
Proof.
  intros Hon Hsplit. revert j clients.
  induction n as [|n IH]; intros j clients Hlevel; [done |].
  simpl. unfold rateLimit. rewrite Hon, Hsplit, locked_section_eq; simpl.
  set (lim := limiter (default newClient (clients !! ip))) in *.
  destruct j as [|j].
  - destruct (Allow_none_left lim now Hlevel) as [Hok Hnext].
    specialize (IH 0%nat
                   (<[ip := {| limiter := (rate.Allow lim now).2;
                               lastSeen := now |}]> clients)).
    rewrite lookup_insert_eq in IH. specialize (IH Hnext).
    destruct (run _ _ _ _) as [rs clients']. simpl in *.
    rewrite Hok, IH. by rewrite Nat.min_0_r, Nat.sub_0_r.
  - destruct (Allow_some_left lim now j Hlevel) as [Hok Hnext].
    specialize (IH j
                   (<[ip := {| limiter := (rate.Allow lim now).2;
                               lastSeen := now |}]> clients)).
    rewrite lookup_insert_eq in IH. specialize (IH Hnext).
    destruct (run _ _ _ _) as [rs clients']. simpl in *.
    by rewrite Hok, IH.
Qed.

(** C1: with the limiter enabled, when a host that is not in the registry
    sends [n] requests at one instant, the first [min n capacity] of them
    are passed to the next handler and every later one is refused, where
    [capacity] is the capacity of the bucket a new client gets (5).  So up
    to [capacity] requests all pass, and of more than [capacity] exactly
    [capacity] pass. *)
Theorem burst_of_new_client (cfg : limiterConfig) (now : Z)
    (addr ip port : string) (n : nat) (clients : gmap string client) :
  enabled cfg = true ->
  SplitHostPort addr = Some (ip, port) ->
  clients !! ip = None ->
  let cap := Z.to_nat (rate.capacity (limiter newClient)) in
  (run SplitHostPort cfg (replicate n (Request addr now)) clients).1 =
    replicate (n `min` cap) nextServeHTTP
      ++ replicate (n - cap) rateLimitExceededResponse /\
  ((n <= cap)%nat ->
   (run SplitHostPort cfg (replicate n (Request addr now)) clients).1 =
     replicate n nextServeHTTP) /\
  ((cap < n)%nat ->
   (run SplitHostPort cfg (replicate n (Request addr now)) clients).1 =
     replicate cap nextServeHTTP
       ++ replicate (n - cap) rateLimitExceededResponse).
Proof.
  intros Hon Hsplit Hnew cap.
  assert ((run SplitHostPort cfg (replicate n (Request addr now)) clients).1 =
          replicate (n `min` cap) nextServeHTTP
            ++ replicate (n - cap) rateLimitExceededResponse) as Hrun.
  { apply (burst_from_level cfg now addr ip port n cap clients Hon Hsplit).
    rewrite Hnew; simpl. by rewrite refill_NewLimiter. }
  split; [exact Hrun |]. split; intros Hn; rewrite Hrun.
  - replace (n - cap)%nat with 0%nat by lia.
    replace (n `min` cap)%nat with n by lia.
    simpl. by rewrite app_nil_r.
  - by replace (n `min` cap)%nat with cap by lia.
Qed.

End Registry.

Lemma tokens_within_bounds_witness :
  exists c,
    (run splitLastColon (mkLimiterConfig true 5 2)
         [Request "10.0.0.1:4000" 0; Request "10.0.0.1:4001" 250000000;
          Sweep 1000000000; Request "10.0.0.1:4000" 900000000] ∅).2
      !! "10.0.0.1" = Some c /\
    (0 <= rate.tokens (limiter c))%Q /\
    (rate.tokens (limiter c) <= inject_Z (rate.capacity (limiter c)))%Q /\
    rate.capacity (limiter c) = 5.
Proof.
  eexists. split; [vm_compute; reflexivity |].
  eapply (tokens_within_bounds splitLastColon (mkLimiterConfig true 5 2)
            [Request "10.0.0.1:4000" 0; Request "10.0.0.1:4001" 250000000;
             Sweep 1000000000; Request "10.0.0.1:4000" 900000000]
            "10.0.0.1").
  vm_compute; reflexivity.
Defined.

Lemma burst_of_new_client_witness :
  (run splitLastColon (mkLimiterConfig true 5 2)
       (replicate 7 (Request "10.0.0.1:4000" 1000)) ∅).1 =
    replicate 5 nextServeHTTP ++ replicate 2 rateLimitExceededResponse.
Proof.
  exact (proj1 (burst_of_new_client splitLastColon (mkLimiterConfig true 5 2)
                  1000 "10.0.0.1:4000" "10.0.0.1" "4000" 7 ∅
                  eq_refl eq_refl (lookup_empty _))).
Defined.

(** The scenario of the specification: capacity 5, two tokens a second.
    Client A sends six requests at t = 0 (five pass, the sixth is refused)
    and three at t = 1s (two pass, the third is refused); client B, not
    seen before, then has its five. *)
Example scenario :
  (run splitLastColon (mkLimiterConfig true 5 2)
       (replicate 6 (Request "10.0.0.1:4000" 0)
        ++ replicate 3 (Request "10.0.0.1:4000" time.Second)
        ++ replicate 6 (Request "10.0.0.2:4000" time.Second)) ∅).1 =
    replicate 5 nextServeHTTP ++ [rateLimitExceededResponse]
    ++ replicate 2 nextServeHTTP ++ [rateLimitExceededResponse]
    ++ replicate 5 nextServeHTTP ++ [rateLimitExceededResponse].
Proof. vm_compute. reflexivity. Qed.

(** ** The sort column of a validated filter *)

Section SortColumn.

Import validator data.

(** Once something is recorded the validator stays non-empty. *)
Lemma AddError_not_empty (v : Validator) (key message : string) :
  IsEmpty (AddError v key message) = false.
Proof.
  unfold IsEmpty, AddError.
  destruct (Errors v !! key) as [m|] eqn:Hk; simpl.
  - apply bool_decide_eq_false. intros Hsize.
    apply map_size_empty_iff in Hsize. rewrite Hsize in Hk.
    by rewrite lookup_empty in Hk.
  - apply bool_decide_eq_false. rewrite map_size_insert_None by done. lia.
Qed.

Lemma Check_empty (v : Validator) (acceptable : bool) (key message : string) :
  IsEmpty (Check v acceptable key message) = true ->
  IsEmpty v = true /\ acceptable = true.
Proof.
  unfold Check. destruct acceptable; simpl; [done |].
  by rewrite AddError_not_empty.
Qed.

(** A filter that leaves the validator empty passed all five checks. *)
Lemma ValidateFilters_empty (v : Validator) (f : Filters) :
  IsEmpty (ValidateFilters v f) = true ->
  IsEmpty v = true /\
  0 < Page f <= 500 /\ 0 < PageSize f <= 100 /\
  PermittedValue (Sort f) (SortSafeList f) = true.
Proof.
  unfold ValidateFilters. intros H.
  apply Check_empty in H as [H H5]. apply Check_empty in H as [H H4].
  apply Check_empty in H as [H H3]. apply Check_empty in H as [H H2].
  apply Check_empty in H as [H H1].
  repeat split; try done; lia.
Qed.

Lemma sortColumn_from_permitted (sort : string) (safeValues : list string) :
  PermittedValue sort safeValues = true ->
  sortColumn_from sort safeValues = Some (TrimPrefix sort "-").
Proof.
  induction safeValues as [|safeValue rest IH]; simpl; [done |].
  by destruct (String.eqb sort safeValue).
Qed.

Lemma PermittedValue_In (value : string) (permittedValues : list string) :
  PermittedValue value permittedValues = true <-> In value permittedValues.
Proof.
  induction permittedValues as [|p rest IH]; simpl; [done |].
  destruct (String.eqb value p) eqn:E.
  - apply String.eqb_eq in E. split; [by left | done].
  - apply String.eqb_neq in E. rewrite IH. split; [by right |].
    by intros [Heq | Hin]; [symmetry in Heq |].
Qed.

(** Stripping a leading "-": the first character goes when it is a dash,
    and the string is returned whole otherwise. *)
Lemma TrimPrefix_dash (s : string) :
  TrimPrefix s "-" =
    match s with
    | String "-" rest => rest
    | _ => s
    end.
Proof.
  assert (forall t : string, String.prefix "" t = true) as Hnil.
  { by intros [|c t]. }
  assert (forall t : string, String.substring 0 (String.length t) t = t) as Hall.
  { induction t as [|c t IH]; simpl; [done |]. by rewrite IH. }
  unfold TrimPrefix, HasPrefix.
  destruct s as [|c rest]; [done |].
  destruct (Ascii.ascii_dec "-" c) as [<-|Hne].
  - cbn [String.prefix String.length]. rewrite Hnil.
    destruct (Ascii.ascii_dec "-" "-") as [_|Hne]; [| done].
    cbn [String.substring Nat.sub]. by rewrite Nat.sub_0_r, Hall.
  - cbn [String.prefix].
    destruct (Ascii.ascii_dec "-" c) as [Heq|_]; [done |].
    destruct c as [[] [] [] [] [] [] [] []]; try done.
Qed.

(** C10: for a filter that [ValidateFilters] accepts (the validator is
    empty afterwards, so [Sort] is one of [SortSafeList]), [sortColumn]
    does not panic and returns [Sort] without its leading "-", and the
    ORDER BY clause of [GetAll] is built. *)
Theorem sortColumn_of_validated (v : Validator) (f : Filters) :
  IsEmpty (ValidateFilters v f) = true ->
  In (Sort f) (SortSafeList f) /\
  sortColumn f = Some (TrimPrefix (Sort f) "-") /\
  TrimPrefix (Sort f) "-" =
    match Sort f with
    | String "-" rest => rest
    | _ => Sort f
    end /\
  orderBy f =
    Some ("ORDER BY " ++ TrimPrefix (Sort f) "-" ++ " " ++ sortDirection f
          ++ ", id ASC")%string.
Proof.
  intros Hok. apply ValidateFilters_empty in Hok as (_ & _ & _ & Hsort).
  assert (sortColumn f = Some (TrimPrefix (Sort f) "-")) as Hcol.
  { by apply sortColumn_from_permitted. }
  split; [by apply PermittedValue_In |]. split; [done |].
  split; [apply TrimPrefix_dash |].
  unfold orderBy. by rewrite Hcol.
Qed.

End SortColumn.

Lemma sortColumn_of_validated_witness :
  let f := data.mkFilters 1 10 "-rating" ["id"; "rating"; "-id"; "-rating"] in
  data.sortColumn f = Some "rating"%string /\
  data.orderBy f = Some "ORDER BY rating DESC, id ASC"%string.
Proof.
  intros f.
  destruct (sortColumn_of_validated validator.New f) as (_ & Hcol & _ & Hord).
  - vm_compute. reflexivity.
  - split; [exact Hcol | exact Hord].
Defined.

(** A filter whose sort value is not in the safe list is the one case in
    which [sortColumn] panics. *)
Example sortColumn_unsafe :
  data.sortColumn (data.mkFilters 1 10 "name" ["id"; "rating"]) = None.
Proof. reflexivity. Qed.

(** ** The shutdown outcome of [serve] *)

Section Serve.

Import server.

Lemma afterListen_closed : afterListen ErrServerClosed = mReceiving.
Proof. reflexivity. Qed.

Lemma afterListen_other (err : error) :
  err <> ErrServerClosed -> afterListen err = mReturned (Some err).
Proof. intros Hne. by destruct err. Qed.

Lemma afterReceive_returns (err : option error) :
  afterReceive err = mReturned err.
Proof. by destruct err. Qed.

Lemma Shutdown_in_time (timeout drain : Z) :
  drain <= timeout -> Shutdown timeout drain = None.
Proof. intros H. unfold Shutdown. apply Z.leb_le in H. by rewrite H. Qed.

Lemma Shutdown_too_late (timeout drain : Z) :
  timeout < drain -> Shutdown timeout drain = Some DeadlineExceeded.
Proof. intros H. unfold Shutdown. apply Z.leb_gt in H. by rewrite H. Qed.

(** What a run that ends with [serve] returned says about the value
    returned, from each state it can start in: once the main flow waits on
    the channel (or ListenAndServe reports the server closed later in the
    run), exactly one value crosses the channel, it is what Shutdown
    returned, and it is what [serve] returns. *)
Lemma serve_run_returns (drain : Z) (st : main * listener) (tr : list label)
    (st' : main * listener) :
  serve_run drain st tr st' ->
  forall r l', st' = (mReturned r, l') ->
  match st with
  | (mReturned r0, _) =>
    r = r0 /\ deliveries tr = 0%nat /\ ~ In (ListenReturned ErrServerClosed) tr
  | (mReceiving, lSending err) =>
    r = err /\ deliveries tr = 1%nat /\ In (Delivered r) tr
  | (mReceiving, lExited) => False
  | (mReceiving, _) =>
    r = Shutdown shutdownTimeout drain /\ deliveries tr = 1%nat /\
    In (Delivered r) tr
  | (mListening, lSending err) =>
    In (ListenReturned ErrServerClosed) tr ->
    r = err /\ deliveries tr = 1%nat /\ In (Delivered r) tr
  | (mListening, lExited) => ~ In (ListenReturned ErrServerClosed) tr
  | (mListening, _) =>
    In (ListenReturned ErrServerClosed) tr ->
    r = Shutdown shutdownTimeout drain /\ deliveries tr = 1%nat /\
    In (Delivered r) tr
  end.
Proof.
  induction 1 as [st | st l st1 tr st2 Hstep Hrun IH]; intros r l' Hend.
  - subst st. simpl. unfold deliveries; simpl. repeat split; tauto.
  - specialize (IH r l' Hend).
    inversion Hstep as [m | l0 Hl0 | l0 err Herr | m | err]; subst; clear Hstep.
    + (* the signal arrives *)
      destruct m; simpl in *; unfold deliveries in *; simpl in *.
      * intros [Heq | Hin]; [done |].
        destruct (IH Hin) as (-> & Hd & Hdel). repeat split; tauto.
      * destruct IH as (-> & Hd & Hdel). repeat split; tauto.
      * destruct IH as (-> & Hd & Hno). repeat split; [done |].
        intros [Heq | Hin]; [done | tauto].
    + (* ListenAndServe returns ErrServerClosed *)
      rewrite afterListen_closed in IH.
      destruct l0; simpl in *; unfold deliveries in *; simpl in *;
        try done; try (intros _; destruct IH as (-> & Hd & Hdel);
                       repeat split; tauto).
    + (* ListenAndServe returns another error *)
      rewrite (afterListen_other err Herr) in IH. simpl in IH.
      destruct IH as (-> & Hd & Hno).
      destruct l0; simpl; intros [Heq | Hin]; try tauto;
        by injection Heq as ->.
    + (* Shutdown returns *)
      destruct m; simpl in *; unfold deliveries in *; simpl in *.
      * intros [Heq | Hin]; [done |].
        destruct (IH Hin) as (-> & Hd & Hdel). repeat split; tauto.
      * destruct IH as (-> & Hd & Hdel). repeat split; tauto.
      * destruct IH as (-> & Hd & Hno). repeat split; [done |].
        intros [Heq | Hin]; [done | tauto].
    + (* the value crosses the channel *)
      rewrite afterReceive_returns in IH. simpl in IH.
      destruct IH as (-> & Hd & Hno).
      simpl. unfold deliveries in *; simpl.
      rewrite Hd. repeat split; tauto.
Qed.

(** Whatever the drain takes, the graceful path can be run to the end. *)
Lemma serve_run_exists (drain : Z) :
  serve_run drain (mListening, lWaiting)
    [Signal; ListenReturned ErrServerClosed;
     ShutdownReturned (Shutdown shutdownTimeout drain);
     Delivered (Shutdown shutdownTimeout drain)]
    (mReturned (Shutdown shutdownTimeout drain), lExited).
Proof.
  eapply run_step; [apply step_signal |].
  eapply run_step; [by apply step_closed |]. rewrite afterListen_closed.
  eapply run_step; [apply step_shutdown |].
  eapply run_step; [apply step_deliver |]. rewrite afterReceive_returns.
  apply run_done.
Qed.

(** C8: in every run of [serve] in which the server was shut down
    (ListenAndServe returned ErrServerClosed) and [serve] returned, exactly
    one value crossed the channel, that value is what [serve] returned, it
    is nil when the drain finished within the 30 seconds, and it is the
    deadline error when it did not. *)
Theorem serve_shutdown_outcome (drain : Z) (tr : list label)
    (r : option error) (l : listener) :
  serve_run drain (mListening, lWaiting) tr (mReturned r, l) ->
  In (ListenReturned ErrServerClosed) tr ->
  deliveries tr = 1%nat /\ In (Delivered r) tr /\
  (drain <= 30 * time.Second -> r = None) /\
  (30 * time.Second < drain -> r = Some DeadlineExceeded /\ r <> None).
Proof.
  intros Hrun Hclosed.
  pose proof (serve_run_returns drain _ _ _ Hrun r l eq_refl) as H.
  simpl in H. destruct (H Hclosed) as (Hr & Hd & Hdel).
  split; [done |]. split; [done |]. split; intros Hdrain.
  - rewrite Hr. by apply Shutdown_in_time.
  - rewrite Hr, Shutdown_too_late by done. done.
Qed.

End Serve.

Lemma serve_shutdown_outcome_witness :
  (server.deliveries
     [server.Signal; server.ListenReturned server.ErrServerClosed;
      server.ShutdownReturned None; server.Delivered None] = 1%nat) /\
  (server.deliveries
     [server.Signal; server.ListenReturned server.ErrServerClosed;
      server.ShutdownReturned (Some server.DeadlineExceeded);
      server.Delivered (Some server.DeadlineExceeded)] = 1%nat).
Proof.
  split.
  - exact (proj1 (serve_shutdown_outcome (2 * time.Second) _ None server.lExited
                    (serve_run_exists (2 * time.Second))
                    (or_intror (or_introl eq_refl)))).
  - exact (proj1 (serve_shutdown_outcome (31 * time.Second) _
                    (Some server.DeadlineExceeded) server.lExited
                    (serve_run_exists (31 * time.Second))
                    (or_intror (or_introl eq_refl)))).
Defined.

(** ** Two goroutines and one mutex *)

Section Goroutines.

Variable SplitHostPort : string -> option (string * string).
Variable cfg : limiterConfig.
Hypothesis Hon : enabled cfg = true.

(** A goroutine that has not taken the mutex either stays so and leaves
    the shared state alone, or takes the free mutex. *)
Lemma thread_step_before (now : Z) (addr ip port : string) (p p' : pc)
    (s s' : shared) :
  SplitHostPort addr = Some (ip, port) ->
  in_phase now ip Before p (clients s) ->
  thread_step SplitHostPort cfg now addr p s = Some (p', s') ->
  (in_phase now ip Before p' (clients s') /\ s' = s) \/
  (mu s = false /\ mu s' = true /\ clients s' = clients s /\
   in_phase now ip (Inside (clients s)) p' (clients s')).
Proof.
  intros Hsplit [-> | ->] Hstep; simpl in Hstep.
  - rewrite Hon, Hsplit in Hstep. injection Hstep as <- <-.
    left. split; [by right | done].
  - destruct (mu s) eqn:Hmu; [done |]. injection Hstep as <- <-.
    right. simpl. done.
Qed.

(** A goroutine that holds the mutex moves on inside the locked section,
    or releases the mutex having done to the registry what
    [locked_section] does. *)
Lemma thread_step_inside (now : Z) (addr ip : string)
    (base : gmap string client) (p p' : pc) (s s' : shared) :
  in_phase now ip (Inside base) p (clients s) ->
  thread_step SplitHostPort cfg now addr p s = Some (p', s') ->
  (mu s' = mu s /\ in_phase now ip (Inside base) p' (clients s')) \/
  (mu s' = false /\ in_phase now ip (After base) p' (clients s') /\
   clients s' = (locked_section now ip base).2).
Proof.
  intros Hin Hstep. destruct p; simpl in Hin, Hstep; try done.
  - (* pcLookup *)
    destruct Hin as [-> Hcl]. injection Hstep as <- <-.
    left. simpl. by rewrite Hcl.
  - (* pcFound *)
    destruct Hin as (-> & Hcl & ->). left.
    destruct (base !! ip) as [c|] eqn:Hbase.
    + rewrite bool_decide_eq_true_2 in Hstep by eauto. simpl in Hstep.
      injection Hstep as <- <-. simpl. by rewrite Hbase.
    + rewrite bool_decide_eq_false_2 in Hstep by (by intros [? ?]).
      simpl in Hstep. injection Hstep as <- <-. simpl.
      by rewrite Hbase, Hcl.
  - (* pcTouch *)
    destruct Hin as [-> Hcl]. injection Hstep as <- <-.
    left. simpl. by rewrite Hcl.
  - (* pcAllow *)
    destruct Hin as [-> Hcl].
    destruct (clients s !! ip) as [c|] eqn:Hc.
    + destruct (rate.Allow (limiter c) now) as [ok lim] eqn:Hallow.
      injection Hstep as <- <-. left. simpl. split; [done |]. split; [done |].
      unfold locked_section. rewrite <- Hcl, Hc, Hallow. by destruct ok.
    + exfalso. rewrite Hcl, lookup_alter_eq in Hc.
      destruct (base !! ip) as [c|] eqn:Hbase.
      * by rewrite Hbase in Hc.
      * by rewrite lookup_insert_eq in Hc.
  - (* pcUnlock *)
    destruct Hin as [-> Hcl]. injection Hstep as <- <-.
    right. simpl. rewrite <- Hcl. done.
Qed.

(** A goroutine that has released the mutex does not move. *)
Lemma thread_step_after (now : Z) (addr ip : string)
    (base : gmap string client) (p : pc) (s : shared) :
  in_phase now ip (After base) p (clients s) ->
  thread_step SplitHostPort cfg now addr p s = None.
Proof. simpl. by intros ->. Qed.

(** A goroutine outside the locked section does not care what the
    registry holds. *)
Lemma in_phase_outside (now : Z) (ip : string) (ph : phase) (p : pc)
    (cl cl' : gmap string client) :
  (forall base, ph <> Inside base) ->
  in_phase now ip ph p cl -> in_phase now ip ph p cl'.
Proof. intros Hph. destruct ph; simpl; try done. by destruct (Hph base). Qed.

Variables (now1 : Z) (addr1 ip1 port1 : string).
Variables (now2 : Z) (addr2 ip2 port2 : string).
Variable c0 : gmap string client.
Hypothesis Hsplit1 : SplitHostPort addr1 = Some (ip1, port1).
Hypothesis Hsplit2 : SplitHostPort addr2 = Some (ip2, port2).

(** Every step of either goroutine keeps the invariant: the mutex keeps
    them out of each other's locked section. *)
Lemma sys_step_invariant (st st' : pc * pc * shared) :
  sys_invariant now1 ip1 now2 ip2 c0 st ->
  sys_step SplitHostPort cfg now1 addr1 now2 addr2 st st' ->
  sys_invariant now1 ip1 now2 ip2 c0 st'.
Proof.
  intros (ph1 & ph2 & H1 & H2 & Hco) Hstep.
  inversion Hstep as [p1 p2 s p1' s' Hthread | p1 p2 s p2' s' Hthread];
    subst; simpl in *.
  - (* the first goroutine moves *)
    destruct ph1 as [|b1|b1].
    + destruct (thread_step_before now1 addr1 ip1 port1 p1 p1' s s'
                  Hsplit1 H1 Hthread)
        as [[H1' ->] | (Hmu & Hmu' & Hcl & H1')].
      * by exists Before, ph2.
      * exists (Inside (clients s)), ph2. simpl. split; [exact H1' |].
        rewrite Hmu', Hcl. destruct ph2 as [|b2|b2]; simpl in *.
        -- destruct Hco as [_ ->]. done.
        -- destruct Hco as [Hco _]. congruence.
        -- destruct Hco as (_ & -> & ->). done.
    + destruct ph2 as [|b2|b2]; simpl in Hco; [| done |].
      * destruct (thread_step_inside now1 addr1 ip1 b1 p1 p1' s s' H1 Hthread)
          as [[Hmu' H1'] | (Hmu' & H1' & Hcl)].
        -- exists (Inside b1), Before. simpl. rewrite Hmu'. done.
        -- exists (After b1), Before. simpl. rewrite Hmu', Hcl.
           destruct Hco as [_ ->]. done.
      * destruct (thread_step_inside now1 addr1 ip1 b1 p1 p1' s s' H1 Hthread)
          as [[Hmu' H1'] | (Hmu' & H1' & Hcl)].
        -- exists (Inside b1), (After b2). simpl. rewrite Hmu'. done.
        -- exists (After b1), (After b2). simpl. rewrite Hmu', Hcl.
           destruct Hco as (_ & -> & ->). split; [done |]. split; [done |].
           split; [done |]. by right.
    + by rewrite (thread_step_after now1 addr1 ip1 b1 p1 s H1) in Hthread.
  - (* the second goroutine moves *)
    destruct ph2 as [|b2|b2].
    + destruct (thread_step_before now2 addr2 ip2 port2 p2 p2' s s'
                  Hsplit2 H2 Hthread)
        as [[H2' ->] | (Hmu & Hmu' & Hcl & H2')].
      * by exists ph1, Before.
      * exists ph1, (Inside (clients s)). simpl.
        rewrite Hcl in H2' |- *. rewrite Hmu'.
        split; [exact H1 |]. split; [exact H2' |].
        destruct ph1 as [|b1|b1]; simpl in *.
        -- destruct Hco as [_ ->]. done.
        -- destruct Hco as [Hco _]. congruence.
        -- destruct Hco as (_ & -> & ->). done.
    + destruct ph1 as [|b1|b1]; simpl in Hco; [| done |].
      * destruct (thread_step_inside now2 addr2 ip2 b2 p2 p2' s s' H2 Hthread)
          as [[Hmu' H2'] | (Hmu' & H2' & Hcl)].
        -- exists Before, (Inside b2). simpl. rewrite Hmu'. done.
        -- exists Before, (After b2). simpl. rewrite Hmu', Hcl.
           destruct Hco as [_ ->]. done.
      * destruct (thread_step_inside now2 addr2 ip2 b2 p2 p2' s s' H2 Hthread)
          as [[Hmu' H2'] | (Hmu' & H2' & Hcl)].
        -- exists (After b1), (Inside b2). simpl. rewrite Hmu'. done.
        -- exists (After b1), (After b2). simpl. rewrite Hmu', Hcl.
           destruct Hco as (_ & -> & ->). split; [done |]. split; [done |].
           split; [done |]. by left.
    + by rewrite (thread_step_after now2 addr2 ip2 b2 p2 s H2) in Hthread.
Qed.

(** The invariant holds all along every interleaving that starts with
    both goroutines at the handler's entry and the mutex free. *)
Lemma sys_run_invariant (st : pc * pc * shared) :
  rtc (sys_step SplitHostPort cfg now1 addr1 now2 addr2)
      (pcEntry, pcEntry, {| mu := false; clients := c0 |}) st ->
  sys_invariant now1 ip1 now2 ip2 c0 st.
Proof.
  revert st. apply rtc_ind_r.
  - exists Before, Before. simpl. split; [by left |]. split; [by left | done].
  - intros st st' _ Hstep IH. by eapply sys_step_invariant.
Qed.






End Goroutines.




(** ** Filters: validation, sorting and pagination *)

Section Pagination.

Import validator data.

Lemma Check_acceptable (v : Validator) (key message : string) :
  Check v true key message = v.
Proof. reflexivity. Qed.

(** X1: [ValidateFilters] leaves the validator empty exactly when it was
    empty before, the page is in 1..500, the page size is in 1..100 and the
    sort value is one of the safe list. *)
Theorem ValidateFilters_accepts_iff (v : Validator) (f : Filters) :
  IsEmpty (ValidateFilters v f) = true <->
  IsEmpty v = true /\
  0 < Page f <= 500 /\ 0 < PageSize f <= 100 /\
  In (Sort f) (SortSafeList f).
Proof.
  split.
  - intros H. apply ValidateFilters_empty in H as (Hv & Hp & Hs & Hsort).
    by rewrite PermittedValue_In in Hsort.
  - intros (Hv & Hp & Hs & Hsort). apply PermittedValue_In in Hsort.
    unfold ValidateFilters. rewrite Hsort.
    replace (0 <? Page f) with true by (symmetry; apply Z.ltb_lt; lia).
    replace (Page f <=? 500) with true by (symmetry; apply Z.leb_le; lia).
    replace (0 <? PageSize f) with true by (symmetry; apply Z.ltb_lt; lia).
    replace (PageSize f <=? 100) with true by (symmetry; apply Z.leb_le; lia).
    by rewrite !Check_acceptable.
Qed.

(** X2: [sortColumn] reaches its panic exactly when the sort value is not
    in the safe list. *)
Theorem sortColumn_panics_iff (f : Filters) :
  sortColumn f = None <-> (In (Sort f) (SortSafeList f) -> False).
Proof.
  unfold sortColumn. destruct f as [page size sort safe]; simpl.
  induction safe as [|safeValue rest IH]; simpl; [tauto |].
  destruct (String.eqb sort safeValue) eqn:E.
  - apply String.eqb_eq in E. split; [done | intros H; destruct H; by left].
  - apply String.eqb_neq in E. rewrite IH. split.
    + intros H [Heq | Hin]; [by symmetry in Heq | tauto].
    + intros H Hin. apply H. by right.
Qed.

Lemma HasPrefix_dash (s : string) :
  HasPrefix s "-" = match s with String "-" _ => true | _ => false end.
Proof.
  unfold HasPrefix. destruct s as [|c rest]; [done |].
  cbn [String.prefix].
  destruct (Ascii.ascii_dec "-" c) as [<-|Hne].
  - by destruct rest.
  - destruct c as [[] [] [] [] [] [] [] []]; try done.
Qed.

(** X3: the column and the direction together give the sort value back:
    when [sortColumn] returns a column, the sort value is that column,
    with a "-" before it exactly when [sortDirection] is "DESC"; the
    direction is "ASC" otherwise. *)
Theorem sortColumn_sortDirection (f : Filters) (column : string) :
  sortColumn f = Some column ->
  (sortDirection f = "DESC"%string /\ Sort f = String "-" column) \/
  (sortDirection f = "ASC"%string /\ Sort f = column).
Proof.
  intros Hcol.
  assert (column = TrimPrefix (Sort f) "-") as ->.
  { unfold sortColumn in Hcol.
    induction (SortSafeList f) as [|safeValue rest IH]; simpl in Hcol; [done |].
    destruct (String.eqb (Sort f) safeValue); [congruence | by apply IH]. }
  unfold sortDirection. rewrite HasPrefix_dash, TrimPrefix_dash.
  destruct (Sort f) as [|c rest]; [by right |].
  destruct (Ascii.ascii_dec c "-") as [->|Hne]; [by left |].
  right. destruct c as [[] [] [] [] [] [] [] []]; try done.
Qed.

Lemma wrapInt_small (z : Z) :
  - 2 ^ 63 <= z < 2 ^ 63 -> wrapInt z = z.
Proof. intros Hz. unfold wrapInt. rewrite Z.mod_small; lia. Qed.

Lemma wrapInt_range (z : Z) : - 2 ^ 63 <= wrapInt z < 2 ^ 63.
Proof.
  unfold wrapInt. pose proof (Z.mod_pos_bound (z + 2 ^ 63) (2 ^ 64)). lia.
Qed.

(** X4: for a filter that [ValidateFilters] accepts, [limit] is between 1
    and 100 and [offset] is [(Page - 1) * PageSize] exactly, with no
    wrap-around, between 0 and 49900. *)
Theorem limit_offset_validated (v : Validator) (f : Filters) :
  IsEmpty (ValidateFilters v f) = true ->
  1 <= limit f <= 100 /\
  offset f = (Page f - 1) * PageSize f /\
  0 <= offset f <= 49900.
Proof.
  intros H. apply ValidateFilters_empty in H as (_ & Hp & Hs & _).
  unfold limit, offset.
  rewrite (wrapInt_small (Page f - 1)) by lia.
  rewrite wrapInt_small by nia.
  split; [lia |]. split; [done | nia].
Qed.

(** X5: with records to report and a positive page size (and their sum
    within the range of an [int]), [calculateMetaData] does not panic, the
    first page is 1 and the last page is the number of pages needed: the
    least [n] with [totalRecords <= n * pageSize]. *)
Theorem calculateMetaData_last_page (totalRecords currentPage pageSize : Z) :
  0 < totalRecords -> 0 < pageSize -> totalRecords + pageSize < 2 ^ 63 ->
  exists m,
    calculateMetaData totalRecords currentPage pageSize = Some m /\
    Metadata.CurrentPage m = currentPage /\
    Metadata.PageSize m = pageSize /\
    Metadata.TotalRecords m = totalRecords /\
    Metadata.FirstPage m = 1 /\
    1 <= Metadata.LastPage m /\
    (Metadata.LastPage m - 1) * pageSize < totalRecords
      <= Metadata.LastPage m * pageSize.
Proof.
  intros Ht Hs Hno. unfold calculateMetaData.
  replace (totalRecords =? 0) with false by (symmetry; apply Z.eqb_neq; lia).
  replace (pageSize =? 0) with false by (symmetry; apply Z.eqb_neq; lia).
  eexists. split; [reflexivity |]. simpl.
  rewrite (wrapInt_small (totalRecords + pageSize)) by lia.
  rewrite (wrapInt_small (totalRecords + pageSize - 1)) by lia.
  rewrite Z.quot_div_nonneg by lia.
  pose proof (Z.div_mod (totalRecords + pageSize - 1) pageSize ltac:(lia)) as Hdm.
  pose proof (Z.mod_pos_bound (totalRecords + pageSize - 1) pageSize Hs) as Hm.
  assert (0 <= (totalRecords + pageSize - 1) / pageSize) as Hq0
    by (apply Z.div_pos; lia).
  set (q := (totalRecords + pageSize - 1) / pageSize) in *.
  set (r := (totalRecords + pageSize - 1) mod pageSize) in *.
  assert (q <= pageSize * q) as Hq1 by nia.
  rewrite wrapInt_small by lia.
  repeat split; try done; nia.
Qed.

(** X6: [calculateMetaData] panics exactly when there are records and the
    page size is zero; with no records it returns the zero [Metadata],
    whatever the page and the page size are. *)
Theorem calculateMetaData_panics_iff (totalRecords currentPage pageSize : Z) :
  (calculateMetaData totalRecords currentPage pageSize = None <->
   totalRecords <> 0 /\ pageSize = 0) /\
  calculateMetaData 0 currentPage pageSize = Some Metadata.zero.
Proof.
  split; [| reflexivity]. unfold calculateMetaData.
  destruct (Z.eqb_spec totalRecords 0) as [->|Ht].
  - split; [done | by intros [? _]].
  - destruct (Z.eqb_spec pageSize 0) as [->|Hs].
    + by split.
    + split; [done | by intros [_ ?]].
Qed.

End Pagination.

Lemma sortColumn_sortDirection_witness :
  let f := data.mkFilters 2 10 "-id" ["id"; "rating"; "-id"; "-rating"] in
  (data.sortDirection f = "DESC"%string /\ data.Sort f = String "-" "id") \/
  (data.sortDirection f = "ASC"%string /\ data.Sort f = "id"%string).
Proof.
  intros f. apply (sortColumn_sortDirection f "id"). reflexivity.
Defined.

Lemma limit_offset_validated_witness :
  let f := data.mkFilters 3 20 "id" ["id"; "rating"] in
  1 <= data.limit f <= 100 /\
  data.offset f = (data.Page f - 1) * data.PageSize f /\
  0 <= data.offset f <= 49900.
Proof.
  intros f. apply (limit_offset_validated validator.New f).
  vm_compute. reflexivity.
Defined.

Lemma calculateMetaData_last_page_witness :
  exists m,
    data.calculateMetaData 41 3 20 = Some m /\
    data.Metadata.CurrentPage m = 3 /\
    data.Metadata.PageSize m = 20 /\
    data.Metadata.TotalRecords m = 41 /\
    data.Metadata.FirstPage m = 1 /\
    1 <= data.Metadata.LastPage m /\
    (data.Metadata.LastPage m - 1) * 20 < 41 <= data.Metadata.LastPage m * 20.
Proof. apply (calculateMetaData_last_page 41 3 20); reflexivity. Defined.

(** ** More on the handler and the cleanup pass *)

Section Isolation.

Variable SplitHostPort : string -> option (string * string).

Lemma lookup_locked_section_ne (now : Z) (ip k : string)
    (cl : gmap string client) :
  k <> ip -> (locked_section now ip cl).2 !! k = cl !! k.
Proof. intros Hne. rewrite locked_section_eq; simpl. by rewrite lookup_insert_ne. Qed.

Lemma lookup_locked_section_eq (now : Z) (ip : string) (cl : gmap string client) :
  (locked_section now ip cl).2 !! ip =
    Some {| limiter := (rate.Allow (limiter (default newClient (cl !! ip))) now).2;
            lastSeen := now |}.
Proof. rewrite locked_section_eq; simpl. by rewrite lookup_insert_eq. Qed.

(** X7: a request changes the entry of its own host and nothing else.
    Under the limiter, with an address of host [ip], the entry of [ip]
    exists afterwards and carries the time of the request both as
    [lastSeen] and as the refill time of its bucket, and every other key
    holds what it held before; and whatever the configuration and the
    address, no entry is ever removed by a request. *)
Theorem rateLimit_touches_own_entry (cfg : limiterConfig) (now : Z)
    (addr : string) (cl : gmap string client) :
  (forall ip port, enabled cfg = true -> SplitHostPort addr = Some (ip, port) ->
     (exists c, (rateLimit SplitHostPort cfg now addr cl).2 !! ip = Some c /\
                lastSeen c = now /\ rate.lastRefill (limiter c) = now) /\
     (forall k, k <> ip ->
        (rateLimit SplitHostPort cfg now addr cl).2 !! k = cl !! k)) /\
  (forall k, is_Some (cl !! k) ->
     is_Some ((rateLimit SplitHostPort cfg now addr cl).2 !! k)).
Proof.
  split.
  - intros ip port Hon Hsplit. unfold rateLimit. rewrite Hon, Hsplit. split.
    + eexists. split; [apply lookup_locked_section_eq |]. simpl.
      split; [done |]. unfold rate.Allow. apply TryConsume_lastRefill.
    + intros k Hne. by apply lookup_locked_section_ne.
  - intros k Hk. unfold rateLimit.
    destruct (enabled cfg); [| done].
    destruct (SplitHostPort addr) as [[ip port]|]; [| done].
    destruct (decide (k = ip)) as [->|Hne].
    + rewrite lookup_locked_section_eq. eauto.
    + by rewrite lookup_locked_section_ne.
Qed.

Lemma locked_section_commute (now1 now2 : Z) (ip1 ip2 : string)
    (cl : gmap string client) :
  ip1 <> ip2 ->
  (locked_section now1 ip1 (locked_section now2 ip2 cl).2).1
    = (locked_section now1 ip1 cl).1 /\
  (locked_section now1 ip1 (locked_section now2 ip2 cl).2).2
    = (locked_section now2 ip2 (locked_section now1 ip1 cl).2).2.
Proof.
  intros Hne. rewrite !locked_section_eq; simpl.
  rewrite !lookup_insert_ne by done. split; [done |].
  by apply insert_insert_ne.
Qed.

(** X8: requests of two different hosts do not see each other.  Handled
    in either order they get the same two responses and leave the same
    registry. *)
Theorem rateLimit_commute (cfg : limiterConfig) (now1 now2 : Z)
    (addr1 addr2 ip1 port1 ip2 port2 : string) (cl : gmap string client) :
  SplitHostPort addr1 = Some (ip1, port1) ->
  SplitHostPort addr2 = Some (ip2, port2) ->
  ip1 <> ip2 ->
  let first := rateLimit SplitHostPort cfg now1 addr1 cl in
  let second := rateLimit SplitHostPort cfg now2 addr2 first.2 in
  let second' := rateLimit SplitHostPort cfg now2 addr2 cl in
  let first' := rateLimit SplitHostPort cfg now1 addr1 second'.2 in
  first.1 = first'.1 /\ second.1 = second'.1 /\ second.2 = first'.2.
Proof.
  intros Hs1 Hs2 Hne. unfold rateLimit. rewrite Hs1, Hs2.
  destruct (enabled cfg); simpl; [| done].
  destruct (locked_section_commute now1 now2 ip1 ip2 cl Hne) as [Hr1 Hcl].
  destruct (locked_section_commute now2 now1 ip2 ip1 cl) as [Hr2 _]; [done |].
  by rewrite Hr1, Hr2, Hcl.
Qed.

(** X9: a client that has just been served is kept by every cleanup pass
    of the next three minutes: after a request of host [ip] at [now], a
    pass at [now'] with [now' - now <= 3 * time.Minute] leaves its entry as
    it is. *)
Theorem served_client_survives_sweep (cfg : limiterConfig) (now now' : Z)
    (addr ip port : string) (cl : gmap string client) :
  enabled cfg = true ->
  SplitHostPort addr = Some (ip, port) ->
  now' - now <= staleThreshold ->
  is_Some ((rateLimit SplitHostPort cfg now addr cl).2 !! ip) /\
  sweep now' (rateLimit SplitHostPort cfg now addr cl).2 !! ip
    = (rateLimit SplitHostPort cfg now addr cl).2 !! ip.
Proof.
  intros Hon Hsplit Hfresh. unfold rateLimit. rewrite Hon, Hsplit.
  rewrite lookup_sweep, lookup_locked_section_eq. simpl.
  split; [eauto |]. unfold time.Since, staleThreshold in *.
  replace (3 * time.Minute <? now' - now) with false; [done |].
  symmetry. apply Z.ltb_ge. lia.
Qed.

End Isolation.

Section SweepFacts.

(** X10: the delete-while-ranging loop of the cleanup pass computes a
    filter: it keeps exactly the entries seen within the last three
    minutes.  So every entry left is that recent, and a second pass at the
    same instant changes nothing. *)
Theorem sweep_is_filter (now : Z) (cl : gmap string client) :
  sweep now cl
    = filter (fun kv => now - lastSeen kv.2 <= staleThreshold) cl /\
  (forall ip c, sweep now cl !! ip = Some c ->
     cl !! ip = Some c /\ now - lastSeen c <= staleThreshold) /\
  sweep now (sweep now cl) = sweep now cl.
Proof.
  assert (forall ip c, sweep now cl !! ip = Some c <->
            cl !! ip = Some c /\ now - lastSeen c <= staleThreshold) as Hiff.
  { intros ip c. rewrite lookup_sweep.
    unfold time.Since, staleThreshold.
    destruct (cl !! ip) as [c'|]; [| by split; [| intros [? _]]].
    destruct (Z.ltb_spec (3 * time.Minute) (now - lastSeen c')); split.
    - done.
    - intros [[= ->] ?]. lia.
    - intros [= ->]. split; [done | lia].
    - by intros [? _]. }
  split; [| split].
  - apply map_eq. intros ip. apply option_eq. intros c.
    rewrite Hiff, map_lookup_filter_Some. done.
  - intros ip c. apply Hiff.
  - apply map_eq. intros ip. apply option_eq. intros c.
    rewrite lookup_sweep.
    destruct (sweep now cl !! ip) as [c'|] eqn:Hc'; [| done].
    apply Hiff in Hc' as [_ Hfresh]. unfold time.Since, staleThreshold in *.
    replace (3 * time.Minute <? now - lastSeen c') with false; [done |].
    symmetry. apply Z.ltb_ge. lia.
Qed.

End SweepFacts.

Lemma rateLimit_commute_witness :
  let cfg := mkLimiterConfig true 5 2 in
  let first := rateLimit splitLastColon cfg 10 "10.0.0.1:4000" ∅ in
  let second := rateLimit splitLastColon cfg 20 "10.0.0.2:4000" first.2 in
  let second' := rateLimit splitLastColon cfg 20 "10.0.0.2:4000" ∅ in
  let first' := rateLimit splitLastColon cfg 10 "10.0.0.1:4000" second'.2 in
  first.1 = first'.1 /\ second.1 = second'.1 /\ second.2 = first'.2.
Proof.
  apply (rateLimit_commute splitLastColon (mkLimiterConfig true 5 2) 10 20
           "10.0.0.1:4000" "10.0.0.2:4000" "10.0.0.1" "4000" "10.0.0.2" "4000" ∅);
    [reflexivity | reflexivity | discriminate].
Defined.

Lemma served_client_survives_sweep_witness :
  let cl := (rateLimit splitLastColon (mkLimiterConfig true 5 2)
               (10 * time.Second) "10.0.0.1:4000" ∅).2 in
  is_Some (cl !! "10.0.0.1") /\
  sweep (190 * time.Second) cl !! "10.0.0.1" = cl !! "10.0.0.1".
Proof.
  apply (served_client_survives_sweep splitLastColon (mkLimiterConfig true 5 2)
           (10 * time.Second) (190 * time.Second) "10.0.0.1:4000" "10.0.0.1"
           "4000" ∅); [reflexivity | reflexivity | discriminate].
Defined.

Lemma rateLimit_touches_own_entry_witness :
  let cl : gmap string client := {["10.0.0.2" := newClient]} in
  let cl' := (rateLimit splitLastColon (mkLimiterConfig true 5 2) 10
                "10.0.0.1:4000" cl).2 in
  (exists c, cl' !! "10.0.0.1" = Some c /\ lastSeen c = 10 /\
             rate.lastRefill (limiter c) = 10) /\
  cl' !! "10.0.0.2" = cl !! "10.0.0.2".
Proof.
  intros cl cl'.
  destruct (proj1 (rateLimit_touches_own_entry splitLastColon
                     (mkLimiterConfig true 5 2) 10 "10.0.0.1:4000" cl)
                  "10.0.0.1" "4000" eq_refl eq_refl) as [Hown Hother].
  split; [exact Hown |]. apply Hother. discriminate.
Defined.

(** ** The rate the limiter enforces *)

Section RateBound.

Variable SplitHostPort : string -> option (string * string).

Local Open Scope Q_scope.





















End RateBound.



(** ** The mutex: exclusion, progress, termination *)

Section Mutex.

Variable SplitHostPort : string -> option (string * string).
Variable cfg : limiterConfig.
Hypothesis Hon : enabled cfg = true.
Variables (now1 : Z) (addr1 ip1 port1 : string).
Variables (now2 : Z) (addr2 ip2 port2 : string).
Variable c0 : gmap string client.
Hypothesis Hsplit1 : SplitHostPort addr1 = Some (ip1, port1).
Hypothesis Hsplit2 : SplitHostPort addr2 = Some (ip2, port2).

Lemma in_phase_locked (now : Z) (ip : string) (ph : phase) (p : pc)
    (cl : gmap string client) :
  in_phase now ip ph p cl ->
  in_locked_section p = match ph with Inside _ => true | _ => false end.
Proof.
  destruct ph as [|b|b]; simpl.
  - by intros [-> | ->].
  - by destruct p.
  - by intros ->.
Qed.

Lemma thread_step_inside_Some (now : Z) (addr ip : string)
    (base : gmap string client) (p : pc) (s : shared) :
  in_phase now ip (Inside base) p (clients s) ->
  is_Some (thread_step SplitHostPort cfg now addr p s).
Proof.
  destruct p; simpl; try done; intros _; eauto.
  - destruct (negb found); eauto.
  - destruct (clients s !! ip0) as [c|]; [| eauto].
    destruct (rate.Allow (limiter c) now); eauto.
Qed.

Lemma thread_step_before_Some (now : Z) (addr ip port : string) (p : pc)
    (s : shared) :
  SplitHostPort addr = Some (ip, port) ->
  in_phase now ip Before p (clients s) -> mu s = false ->
  is_Some (thread_step SplitHostPort cfg now addr p s).
Proof.
  intros Hsplit [-> | ->] Hmu; simpl.
  - rewrite Hon, Hsplit. eauto.
  - rewrite Hmu. eauto.
Qed.

(** X13: the mutex excludes.  In every state two goroutines serving two
    requests can reach, they are never both between [mu.Lock()] and
    [mu.Unlock()], and the mutex is held exactly when one of them is. *)
Theorem mutual_exclusion (p1 p2 : pc) (s : shared) :
  rtc (sys_step SplitHostPort cfg now1 addr1 now2 addr2)
      (pcEntry, pcEntry, {| mu := false; clients := c0 |}) (p1, p2, s) ->
  in_locked_section p1 && in_locked_section p2 = false /\
  mu s = in_locked_section p1 || in_locked_section p2.
Proof.
  intros Hrun.
  destruct (sys_run_invariant SplitHostPort cfg Hon now1 addr1 ip1 port1
              now2 addr2 ip2 port2 c0 Hsplit1 Hsplit2 _ Hrun)
    as (ph1 & ph2 & H1 & H2 & Hco).
  simpl in *.
  rewrite (in_phase_locked _ _ _ _ _ H1), (in_phase_locked _ _ _ _ _ H2).
  destruct ph1, ph2; simpl in *; intuition.
Qed.

(** X14: no deadlock.  From every state they can reach, one of the two
    goroutines can take a step unless both have given their response. *)
Theorem no_deadlock (p1 p2 : pc) (s : shared) :
  rtc (sys_step SplitHostPort cfg now1 addr1 now2 addr2)
      (pcEntry, pcEntry, {| mu := false; clients := c0 |}) (p1, p2, s) ->
  (exists st', sys_step SplitHostPort cfg now1 addr1 now2 addr2 (p1, p2, s) st') \/
  (exists r1 r2, p1 = pcDone r1 /\ p2 = pcDone r2).
Proof.
  intros Hrun.
  destruct (sys_run_invariant SplitHostPort cfg Hon now1 addr1 ip1 port1
              now2 addr2 ip2 port2 c0 Hsplit1 Hsplit2 _ Hrun)
    as (ph1 & ph2 & H1 & H2 & Hco).
  simpl in *.
  assert (forall o : option (pc * shared), is_Some o -> exists q t, o = Some (q, t))
    as Hsome.
  { intros o [[q t] ->]. eauto. }
  destruct ph1 as [|b1|b1].
  - destruct ph2 as [|b2|b2]; simpl in Hco.
    + destruct Hco as [Hmu _].
      destruct (Hsome _ (thread_step_before_Some now1 addr1 ip1 port1 p1 s
                           Hsplit1 H1 Hmu)) as (q & t & Hq).
      left. eexists. by apply step_first.
    + destruct (Hsome _ (thread_step_inside_Some now2 addr2 ip2 b2 p2 s H2))
        as (q & t & Hq).
      left. eexists. by apply step_second.
    + destruct Hco as [Hmu _].
      destruct (Hsome _ (thread_step_before_Some now1 addr1 ip1 port1 p1 s
                           Hsplit1 H1 Hmu)) as (q & t & Hq).
      left. eexists. by apply step_first.
  - destruct (Hsome _ (thread_step_inside_Some now1 addr1 ip1 b1 p1 s H1))
      as (q & t & Hq).
    left. eexists. by apply step_first.
  - destruct ph2 as [|b2|b2]; simpl in Hco.
    + destruct Hco as [Hmu _].
      destruct (Hsome _ (thread_step_before_Some now2 addr2 ip2 port2 p2 s
                           Hsplit2 H2 Hmu)) as (q & t & Hq).
      left. eexists. by apply step_second.
    + destruct (Hsome _ (thread_step_inside_Some now2 addr2 ip2 b2 p2 s H2))
        as (q & t & Hq).
      left. eexists. by apply step_second.
    + right. simpl in H1, H2. eauto.
Qed.

Lemma thread_step_steps_left (cfg' : limiterConfig) (now : Z) (addr : string)
    (p p' : pc) (s s' : shared) :
  thread_step SplitHostPort cfg' now addr p s = Some (p', s') ->
  (steps_left p' < steps_left p)%nat.
Proof.
  destruct p; simpl; intros Hstep;
    repeat match type of Hstep with
           | context [if ?b then _ else _] => destruct b
           | context [match ?o with Some _ => _ | None => _ end] => destruct o
           | context [let '(_, _) := ?x in _] => destruct x
           end;
    try done; injection Hstep as <- _; simpl; lia.
Qed.

(** X15: the handler terminates.  Whatever the configuration and the
    addresses, no interleaving of two goroutines is longer than 14 steps:
    every step uses up one of the at most seven statements a goroutine
    has left. *)
Theorem interleaving_bounded (cfg' : limiterConfig) (n : nat)
    (st st' : pc * pc * shared) :
  nsteps (sys_step SplitHostPort cfg' now1 addr1 now2 addr2) n st st' ->
  (n + steps_left st'.1.1 + steps_left st'.1.2
   <= steps_left st.1.1 + steps_left st.1.2)%nat /\
  (n <= 14)%nat.
Proof.
  intros Hrun.
  assert (n + steps_left st'.1.1 + steps_left st'.1.2
          <= steps_left st.1.1 + steps_left st.1.2)%nat as Hle.
  { induction Hrun as [st | n st st1 st2 Hstep Hrun IH]; [simpl; lia |].
    inversion Hstep as [p1 p2 s p1' s' Hth | p1 p2 s p2' s' Hth]; subst;
      simpl in *; apply thread_step_steps_left in Hth; lia. }
  split; [exact Hle |].
  assert (steps_left st.1.1 <= 7)%nat by (destruct st.1.1; simpl; lia).
  assert (steps_left st.1.2 <= 7)%nat by (destruct st.1.2; simpl; lia).
  lia.
Qed.

End Mutex.

(** ** Reviews: validation *)

Section Reviews.

Import validator data.

Lemma Check_IsEmpty (v : Validator) (acceptable : bool) (key message : string) :
  IsEmpty (Check v acceptable key message) = true <->
  IsEmpty v = true /\ acceptable = true.
Proof.
  destruct acceptable; simpl; [tauto |].
  split; [| by intros [_ ?]].
  intros H. change (Check v false key message) with (AddError v key message) in H.
  by rewrite AddError_not_empty in H.
Qed.

(** X16: [ValidateReview] leaves the validator empty exactly when it was
    empty before, content and author are not empty and at most 500 and 100
    bytes long, and the rating is in 1..5. *)
Theorem ValidateReview_accepts_iff (v : Validator) (review : Review) :
  IsEmpty (ValidateReview v review) = true <->
  IsEmpty v = true /\
  Content review <> EmptyString /\ (String.length (Content review) <= 500)%nat /\
  Author review <> EmptyString /\ (String.length (Author review) <= 100)%nat /\
  1 <= Rating review <= 5.
Proof.
  unfold ValidateReview. rewrite !Check_IsEmpty.
  rewrite !negb_true_iff, andb_true_iff, !Z.leb_le, !Nat.leb_le.
  rewrite <- !not_true_iff_false, !String.eqb_eq.
  tauto.
Qed.

End Reviews.

(** ** The hand-off of [serve]: once, and never stuck *)

Section Handoff.

Import server.

Variable drain : Z.

Lemma serve_run_after_return (st : main * listener) (tr : list label)
    (st' : main * listener) :
  serve_run drain st tr st' ->
  forall r, st.1 = mReturned r ->
  st'.1 = mReturned r /\ deliveries tr = 0%nat /\
  (st'.2 = lExited <-> st.2 = lExited).
Proof.
  induction 1 as [st | st l st1 tr st2 Hstep Hrun IH]; intros r Hr.
  - done.
  - inversion Hstep; subst; simpl in *; try done;
      destruct (IH r Hr) as (H1 & H2 & H3); simpl in *;
      (split; [done |]); (split; [done |]); rewrite H3; by split.
Qed.

Lemma serve_run_deliveries (st : main * listener) (tr : list label)
    (st' : main * listener) :
  serve_run drain st tr st' ->
  st.2 <> lExited ->
  (deliveries tr <= 1)%nat /\
  (st'.2 = lExited <-> deliveries tr = 1%nat) /\
  (deliveries tr = 1%nat -> exists r, st'.1 = mReturned r /\ In (Delivered r) tr).
Proof.
  induction 1 as [st | st l st1 tr st2 Hstep Hrun IH]; intros Hl.
  - unfold deliveries; simpl. split; [lia |]. split; [| done].
    split; [done | lia].
  - inversion Hstep as [m | l0 Hl0 | l0 err Herr | m | err]; subst;
      simpl in *; clear Hstep.
    + destruct IH as (H1 & H2 & H3); [done |]. unfold deliveries in *; simpl.
      split; [done |]. split; [done |].
      intros Hd. destruct (H3 Hd) as (r & ? & ?). eauto.
    + destruct (IH Hl) as (H1 & H2 & H3). unfold deliveries in *; simpl.
      split; [done |]. split; [done |].
      intros Hd. destruct (H3 Hd) as (r & ? & ?). eauto.
    + destruct (IH Hl) as (H1 & H2 & H3). unfold deliveries in *; simpl.
      split; [done |]. split; [done |].
      intros Hd. destruct (H3 Hd) as (r & ? & ?). eauto.
    + destruct IH as (H1 & H2 & H3); [done |]. unfold deliveries in *; simpl.
      split; [done |]. split; [done |].
      intros Hd. destruct (H3 Hd) as (r & ? & ?). eauto.
    + destruct (serve_run_after_return _ _ _ Hrun err
                  (afterReceive_returns err))
        as (Hm & Hd & Hex).
      simpl in Hex. unfold deliveries in *; simpl. rewrite Hd.
      split; [lia |]. split; [by rewrite Hex |].
      intros _. exists err. split; [done | by left].
Qed.

(** X17: the channel is used at most once.  In every run of [serve], at
    most one value crosses [shutdownError]; the goroutine has finished
    exactly when one did; and then [serve] has returned that value. *)
Theorem serve_delivers_at_most_once (tr : list label) (m : main) (l : listener) :
  serve_run drain (mListening, lWaiting) tr (m, l) ->
  (deliveries tr <= 1)%nat /\
  (l = lExited <-> deliveries tr = 1%nat) /\
  (deliveries tr = 1%nat -> exists r, m = mReturned r /\ In (Delivered r) tr).
Proof.
  intros Hrun. by apply (serve_run_deliveries _ _ _ Hrun).
Qed.

Lemma serve_run_listen_error (st : main * listener) (tr : list label)
    (st' : main * listener) :
  serve_run drain st tr st' ->
  forall r, st.1 = mListening -> st'.1 = mReturned r ->
  (In (ListenReturned ErrServerClosed) tr -> False) ->
  exists err, r = Some err /\ err <> ErrServerClosed /\
              In (ListenReturned err) tr /\ deliveries tr = 0%nat /\
              (st'.2 = lExited <-> st.2 = lExited).
Proof.
  induction 1 as [st | st l st1 tr st2 Hstep Hrun IH]; intros r Hm Hr Hno.
  - by rewrite Hm in Hr.
  - inversion Hstep as [m | l0 Hl0 | l0 err Herr | m | err]; subst;
      simpl in *; clear Hstep.
    + destruct (IH r Hm Hr) as (e & ? & ? & ? & ? & Hex); [tauto |].
      exists e. unfold deliveries in *; simpl. repeat split; try tauto.
      * intros. by apply Hex in H3.
      * done.
    + exfalso. apply Hno. by left.
    + destruct (serve_run_after_return _ _ _ Hrun (Some err)
                  (afterListen_other err Herr))
        as (Hm' & Hd & Hex).
      simpl in *. rewrite Hr in Hm'. injection Hm' as ->.
      exists err. unfold deliveries in *; simpl. repeat split; try tauto.
    + destruct (IH r Hm Hr) as (e & ? & ? & ? & ? & Hex); [tauto |].
      exists e. unfold deliveries in *; simpl. repeat split; try tauto.
      * intros. by apply Hex in H3.
      * done.
    + done.
Qed.

(** X18: the other way out of [serve].  When [serve] returned and
    ListenAndServe had not reported the server closed, the value returned
    is the error of ListenAndServe, nothing crossed the channel, and the
    goroutine has not finished, whatever it did meanwhile. *)
Theorem serve_listen_error (tr : list label) (r : option error) (l : listener) :
  serve_run drain (mListening, lWaiting) tr (mReturned r, l) ->
  (In (ListenReturned ErrServerClosed) tr -> False) ->
  exists err, r = Some err /\ err <> ErrServerClosed /\
              In (ListenReturned err) tr /\ deliveries tr = 0%nat /\
              l <> lExited.
Proof.
  intros Hrun Hno.
  destruct (serve_run_listen_error _ _ _ Hrun r eq_refl eq_refl Hno)
    as (err & ? & ? & ? & ? & Hex).
  exists err. repeat split; try done.
  intros ->. simpl in Hex. by destruct Hex as [Hex _]; specialize (Hex eq_refl).
Qed.

Lemma serve_run_shape (st : main * listener) (tr : list label)
    (st' : main * listener) :
  serve_run drain st tr st' ->
  forall shape : main * listener -> Prop,
  (forall st1 l st2, serve_step drain st1 l st2 -> shape st1 -> shape st2) ->
  shape st -> shape st'.
Proof.
  induction 1 as [st | st l st1 tr st2 Hstep Hrun IH]; intros shape Hpres Hst.
  - done.
  - apply IH; [done |]. by eapply Hpres.
Qed.

Lemma serve_receiving_shape (tr : list label) (l : listener) :
  serve_run drain (mListening, lWaiting) tr (mReceiving, l) ->
  l = lShuttingDown \/ l = lSending (Shutdown shutdownTimeout drain).
Proof.
  intros Hrun.
  pose proof (serve_run_shape _ _ _ Hrun
    (fun st => match st with
               | (mReceiving, lWaiting) | (mReceiving, lExited)
               | (mListening, lExited) => False
               | (_, lSending e) => e = Shutdown shutdownTimeout drain
               | _ => True
               end)) as H.
  simpl in H.
  assert (match l with
          | lWaiting | lExited => False
          | lSending e => e = Shutdown shutdownTimeout drain
          | lShuttingDown => True
          end) as Hl.
  { apply H; [| done].
    intros st1 lab st2 Hstep.
    inversion Hstep as [m | l0 Hl0 | l0 err Herr | m | err]; subst.
    - by destruct m.
    - rewrite afterListen_closed. by destruct l0.
    - rewrite (afterListen_other err Herr). by destruct l0.
    - by destruct m.
    - rewrite afterReceive_returns. done. }
  destruct l; try done; [by left | right; by rewrite Hl].
Qed.

(** X19: the receive is never stuck.  Whenever [serve] waits on
    [shutdownError], the goroutine is inside Shutdown or about to send, so
    the run can be continued until [serve] returns what Shutdown returned
    and the goroutine has finished. *)
Theorem serve_receive_not_stuck (tr : list label) (l : listener) :
  serve_run drain (mListening, lWaiting) tr (mReceiving, l) ->
  (l = lShuttingDown \/ l = lSending (Shutdown shutdownTimeout drain)) /\
  exists tr',
    serve_run drain (mReceiving, l) tr'
      (mReturned (Shutdown shutdownTimeout drain), lExited).
Proof.
  intros Hrun. pose proof (serve_receiving_shape _ _ Hrun) as Hl.
  split; [done |]. destruct Hl as [-> | ->].
  - eexists. eapply run_step; [apply step_shutdown |].
    eapply run_step; [apply step_deliver |]. rewrite afterReceive_returns.
    apply run_done.
  - eexists. eapply run_step; [apply step_deliver |].
    rewrite afterReceive_returns. apply run_done.
Qed.

End Handoff.

Lemma mutual_exclusion_witness :
  in_locked_section (pcLookup "10.0.0.1") && in_locked_section pcEntry = false /\
  true = in_locked_section (pcLookup "10.0.0.1") || in_locked_section pcEntry.
Proof.
  apply (mutual_exclusion splitLastColon (mkLimiterConfig true 5 2) eq_refl
           7 "10.0.0.1:4000" "10.0.0.1" "4000"
           7 "10.0.0.1:4001" "10.0.0.1" "4001" ∅ eq_refl eq_refl
           (pcLookup "10.0.0.1") pcEntry {| mu := true; clients := ∅ |}).
  eapply rtc_l; [apply step_first; reflexivity |].
  eapply rtc_l; [apply step_first; reflexivity |].
  apply rtc_refl.
Defined.

Lemma no_deadlock_witness :
  (exists st',
     sys_step splitLastColon (mkLimiterConfig true 5 2)
       7 "10.0.0.1:4000" 7 "10.0.0.1:4001"
       (pcLookup "10.0.0.1", pcLock "10.0.0.1", {| mu := true; clients := ∅ |})
       st') \/
  (exists r1 r2, pcLookup "10.0.0.1" = pcDone r1 /\ pcLock "10.0.0.1" = pcDone r2).
Proof.
  apply (no_deadlock splitLastColon (mkLimiterConfig true 5 2) eq_refl
           7 "10.0.0.1:4000" "10.0.0.1" "4000"
           7 "10.0.0.1:4001" "10.0.0.1" "4001" ∅ eq_refl eq_refl).
  eapply rtc_l; [apply step_first; reflexivity |].
  eapply rtc_l; [apply step_second; reflexivity |].
  eapply rtc_l; [apply step_first; reflexivity |].
  apply rtc_refl.
Defined.

Lemma interleaving_bounded_witness :
  (2 + steps_left (pcLock "10.0.0.1") + steps_left (pcDone serverErrorResponse)
   <= steps_left pcEntry + steps_left pcEntry)%nat /\
  (2 <= 14)%nat.
Proof.
  apply (interleaving_bounded splitLastColon 7 "10.0.0.1:4000" 7 "no port"
           (mkLimiterConfig true 5 2) 2
           (pcEntry, pcEntry, {| mu := false; clients := ∅ |})
           (pcLock "10.0.0.1", pcDone serverErrorResponse,
            {| mu := false; clients := ∅ |})).
  eapply nsteps_l; [apply step_first; reflexivity |].
  eapply nsteps_l; [apply step_second; reflexivity |].
  apply nsteps_O.
Defined.

Lemma serve_delivers_at_most_once_witness :
  (server.deliveries
     [server.Signal; server.ListenReturned server.ErrServerClosed;
      server.ShutdownReturned None; server.Delivered None] <= 1)%nat /\
  (server.lExited = server.lExited <->
   server.deliveries
     [server.Signal; server.ListenReturned server.ErrServerClosed;
      server.ShutdownReturned None; server.Delivered None] = 1%nat) /\
  (server.deliveries
     [server.Signal; server.ListenReturned server.ErrServerClosed;
      server.ShutdownReturned None; server.Delivered None] = 1%nat ->
   exists r, server.mReturned None = server.mReturned r /\
             In (server.Delivered r)
                [server.Signal; server.ListenReturned server.ErrServerClosed;
                 server.ShutdownReturned None; server.Delivered None]).
Proof.
  apply (serve_delivers_at_most_once 0).
  exact (serve_run_exists 0).
Defined.

Lemma serve_listen_error_witness :
  exists err,
    Some (server.OtherError "address already in use") = Some err /\
    err <> server.ErrServerClosed /\
    In (server.ListenReturned err)
       [server.ListenReturned (server.OtherError "address already in use");
        server.Signal] /\
    server.deliveries
      [server.ListenReturned (server.OtherError "address already in use");
       server.Signal] = 0%nat /\
    server.lShuttingDown <> server.lExited.
Proof.
  apply (serve_listen_error 0).
  - eapply server.run_step; [by apply server.step_listen_error |].
    eapply server.run_step; [apply server.step_signal |].
    apply server.run_done.
  - simpl. intros [H | [H | []]]; discriminate H.
Defined.

Lemma serve_receive_not_stuck_witness :
  (server.lShuttingDown = server.lShuttingDown \/
   server.lShuttingDown =
     server.lSending (server.Shutdown server.shutdownTimeout 0)) /\
  exists tr',
    server.serve_run 0 (server.mReceiving, server.lShuttingDown) tr'
      (server.mReturned (server.Shutdown server.shutdownTimeout 0),
       server.lExited).
Proof.
  apply (serve_receive_not_stuck 0
           [server.Signal; server.ListenReturned server.ErrServerClosed]).
  eapply server.run_step; [apply server.step_signal |].
  eapply server.run_step; [by apply server.step_closed |].
  apply server.run_done.
Defined.

(** ** The list handlers: no panic, and a fixed set of ORDER BY clauses *)

Section Lists.

Import validator data api.

Lemma orderBy_permitted (f : Filters) :
  In (Sort f) (SortSafeList f) ->
  orderBy f =
    Some ("ORDER BY " ++ TrimPrefix (Sort f) "-" ++ " " ++ sortDirection f
            ++ ", id ASC")%string.
Proof.
  intros Hin. unfold orderBy, sortColumn.
  apply PermittedValue_In in Hin.
  by rewrite (sortColumn_from_permitted _ _ Hin).
Qed.

Lemma calculateMetaData_page_size (totalRecords currentPage pageSize : Z) :
  pageSize <> 0 ->
  is_Some (calculateMetaData totalRecords currentPage pageSize).
Proof.
  intros Hne. unfold calculateMetaData.
  destruct (totalRecords =? 0); [eauto |].
  apply Z.eqb_neq in Hne. rewrite Hne. eauto.
Qed.

(** What a list handler does once the filters are accepted: one query,
    with the ORDER BY clause of the sort value, a limit in 1..100 and an
    offset in 0..49900; then an error response or the list. *)
Lemma listWith_valid {A : Type} (v : Validator) (filters : Filters) :
  IsEmpty (ValidateFilters v filters) = true ->
  In (Sort filters) (SortSafeList filters) /\
  exists order (metadata : list (Z * A) -> Metadata.t),
    orderBy filters = Some order /\
    1 <= limit filters <= 100 /\ 0 <= offset filters <= 49900 /\
    forall query : string -> Z -> Z -> option (list (Z * A)),
      listWith query v filters =
        match query order (limit filters) (offset filters) with
        | None => serverErrorResponse
        | Some rows => writeList StatusOK (map snd rows) (metadata rows)
        end.
Proof.
  intros Hv.
  destruct (ValidateFilters_empty _ _ Hv) as (_ & Hp & Hs & Hsort).
  apply PermittedValue_In in Hsort. split; [done |].
  eexists _, (fun rows =>
    default Metadata.zero
      (calculateMetaData (scanTotal rows) (Page filters) (PageSize filters))).
  split; [by apply orderBy_permitted |].
  unfold limit, offset.
  rewrite (wrapInt_small (Page filters - 1)) by lia.
  rewrite wrapInt_small by nia.
  split; [lia |]. split; [nia |].
  intros query. unfold listWith, GetAll. rewrite Hv. simpl.
  rewrite (orderBy_permitted _ Hsort).
  unfold limit, offset.
  rewrite (wrapInt_small (Page filters - 1)) by lia.
  rewrite (wrapInt_small ((Page filters - 1) * PageSize filters)) by nia.
  destruct (query _ _ _) as [rows|]; [| done].
  destruct (calculateMetaData_page_size (scanTotal rows) (Page filters)
              (PageSize filters)) as [md Hmd]; [lia |].
  by rewrite Hmd.
Qed.

Lemma listWith_invalid {A : Type} (query : string -> Z -> Z -> option (list (Z * A)))
    (v : Validator) (filters : Filters) :
  IsEmpty (ValidateFilters v filters) = false ->
  listWith query v filters =
    failedValidationResponse (Errors (ValidateFilters v filters)).
Proof. intros Hv. unfold listWith. by rewrite Hv. Qed.

(** X20: the list handlers of the reviews never reach the panic of
    [sortColumn] nor a division by zero in [calculateMetaData], and they ask
    the database with one of four ORDER BY clauses, a limit in 1..100 and
    an offset in 0..49900 only: two databases that answer those queries
    alike get the same reply. *)
Theorem list_reviews_safe (Request : Type) (readIDParam : Request -> option Z)
    (m m' : ReviewModel) (r : Request) (v : Validator)
    (page pageSize : Z) (sort : string) :
  (listReviewsForProductHandler Request readIDParam m r v page pageSize sort
     = panics -> False) /\
  (listAllReviewsHandler m v page pageSize sort = panics -> False) /\
  ((forall productID order limit offset,
      In order ["ORDER BY id ASC, id ASC"; "ORDER BY rating ASC, id ASC";
                "ORDER BY id DESC, id ASC"; "ORDER BY rating DESC, id ASC"]%string ->
      1 <= limit <= 100 -> 0 <= offset <= 49900 ->
      Query m' productID order limit offset = Query m productID order limit offset) ->
   listReviewsForProductHandler Request readIDParam m' r v page pageSize sort =
     listReviewsForProductHandler Request readIDParam m r v page pageSize sort /\
   listAllReviewsHandler m' v page pageSize sort =
     listAllReviewsHandler m v page pageSize sort).
Proof.
  unfold listReviewsForProductHandler, listAllReviewsHandler.
  set (filters := {| Page := page; PageSize := pageSize; Sort := sort;
                     SortSafeList := ["id"; "rating"; "-id"; "-rating"] |}%string).
  destruct (IsEmpty (ValidateFilters v filters)) eqn:Hv.
  - destruct (listWith_valid (A := Review) v filters Hv)
      as (Hin & order & md & Horder & Hl & Ho & Hlist).
    assert (In order ["ORDER BY id ASC, id ASC"; "ORDER BY rating ASC, id ASC";
                      "ORDER BY id DESC, id ASC"; "ORDER BY rating DESC, id ASC"]%string)
      as Horders.
    { simpl in Hin.
      destruct Hin as [<- | [<- | [<- | [<- | []]]]];
        vm_compute in Horder; injection Horder as <-; simpl; tauto. }
    split; [| split].
    + destruct (readIDParam r) as [productID|]; [| done].
      rewrite Hlist. by destruct (Query m productID _ _ _).
    + rewrite Hlist. by destruct (Query m 0 _ _ _).
    + intros Hsame. split.
      * destruct (readIDParam r) as [productID|]; [| done].
        by rewrite !Hlist, Hsame.
      * by rewrite !Hlist, Hsame.
  - split; [| split].
    + destruct (readIDParam r) as [productID|]; [| done].
      by rewrite listWith_invalid.
    + by rewrite listWith_invalid.
    + intros _. split.
      * destruct (readIDParam r) as [productID|]; [| done].
        by rewrite !listWith_invalid.
      * by rewrite !listWith_invalid.
Qed.

(** X21: the list handler of the products never panics either, and it
    asks the database with one of eight ORDER BY clauses (four columns, two
    directions), a limit in 1..100 and an offset in 0..49900 only. *)
Theorem list_products_safe (Product : Type)
    (query query' : string -> Z -> Z -> option (list (Z * Product)))
    (v : Validator) (page pageSize : Z) (sort : string) :
  (listProductsHandler query v page pageSize sort = panics -> False) /\
  ((forall order limit offset,
      In order ["ORDER BY id ASC, id ASC"; "ORDER BY name ASC, id ASC";
                "ORDER BY id DESC, id ASC"; "ORDER BY name DESC, id ASC";
                "ORDER BY price ASC, id ASC"; "ORDER BY price DESC, id ASC";
                "ORDER BY average_rating ASC, id ASC";
                "ORDER BY average_rating DESC, id ASC"]%string ->
      1 <= limit <= 100 -> 0 <= offset <= 49900 ->
      query' order limit offset = query order limit offset) ->
   listProductsHandler query' v page pageSize sort =
     listProductsHandler query v page pageSize sort).
Proof.
  unfold listProductsHandler.
  set (filters := {| Page := page; PageSize := pageSize; Sort := sort;
                     SortSafeList := _ |}).
  destruct (IsEmpty (ValidateFilters v filters)) eqn:Hv.
  - destruct (listWith_valid (A := Product) v filters Hv)
      as (Hin & order & md & Horder & Hl & Ho & Hlist).
    assert (In order ["ORDER BY id ASC, id ASC"; "ORDER BY name ASC, id ASC";
                "ORDER BY id DESC, id ASC"; "ORDER BY name DESC, id ASC";
                "ORDER BY price ASC, id ASC"; "ORDER BY price DESC, id ASC";
                "ORDER BY average_rating ASC, id ASC";
                "ORDER BY average_rating DESC, id ASC"]%string)
      as Horders.
    { simpl in Hin.
      destruct Hin as [<- | [<- | [<- | [<- | [<- | [<- | [<- | [<- | []]]]]]]]];
        vm_compute in Horder; injection Horder as <-; simpl; tauto. }
    split.
    + rewrite Hlist. by destruct (query _ _ _).
    + intros Hsame. by rewrite !Hlist, Hsame.
  - split; [by rewrite listWith_invalid |].
    intros _. by rewrite !listWith_invalid.
Qed.

End Lists.

(** ** The handlers of one review *)

Section ReviewHandlers.

Import validator data api.

Variable Request : Type.
Variable readIDParam : Request -> option Z.

Lemma ValidateReview_empty (review : Review) :
  IsEmpty (ValidateReview validator.New review) = true ->
  Content review <> EmptyString /\ (String.length (Content review) <= 500)%nat /\
  Author review <> EmptyString /\ (String.length (Author review) <= 100)%nat /\
  1 <= Rating review <= 5.
Proof.
  unfold ValidateReview. rewrite !Check_IsEmpty.
  rewrite !negb_true_iff, andb_true_iff, !Z.leb_le, !Nat.leb_le.
  rewrite <- !not_true_iff_false, !String.eqb_eq.
  tauto.
Qed.

(** X22: [displayReviewHandler] and [deleteReviewHandler] take the review
    id from a second call of [a.readIDParam] on the same request, so they
    address the reviews at pairs (id, id) only: whatever [readIDParam] is,
    two databases that agree on those pairs get the same reply. *)
Theorem review_handlers_one_id (m m' : ReviewModel) (r : Request) :
  (forall id, Get m' id id = Get m id id) ->
  (forall id, Delete m' id id = Delete m id id) ->
  displayReviewHandler Request readIDParam m' r =
    displayReviewHandler Request readIDParam m r /\
  deleteReviewHandler Request readIDParam m' r =
    deleteReviewHandler Request readIDParam m r.
Proof.
  intros Hget Hdel. unfold displayReviewHandler, deleteReviewHandler.
  destruct (readIDParam r) as [id|]; [| done].
  by rewrite Hget, Hdel.
Qed.

(** X23: what the handlers write.  [createReviewHandler] calls [Insert]
    only with a review that passes [ValidateReview], has the product id of
    the request, no id yet and a helpful count of 0.  [updateReviewHandler]
    reads the review at (id, id) and calls [Update] only with a review that
    passes [ValidateReview] and has the id, the product id, the creation
    time and the version of the review it read. *)
Theorem review_writes_validated (m m' : ReviewModel) (r : Request)
    (created : option (string * string * Z)) (updated : option updateInput) :
  ((forall id review,
      readIDParam r = Some id ->
      ProductID review = id -> ID review = 0 -> HelpfulCount review = 0 ->
      Content review <> EmptyString /\ (String.length (Content review) <= 500)%nat /\
      Author review <> EmptyString /\ (String.length (Author review) <= 100)%nat /\
      1 <= Rating review <= 5 ->
      Insert m' review = Insert m review) ->
   createReviewHandler Request readIDParam m' r created =
     createReviewHandler Request readIDParam m r created) /\
  ((forall id, Get m' id id = Get m id id) ->
   (forall id old review,
      readIDParam r = Some id -> Get m id id = inr old ->
      ID review = ID old -> ProductID review = ProductID old ->
      CreatedAt review = CreatedAt old -> Version review = Version old ->
      Content review <> EmptyString /\ (String.length (Content review) <= 500)%nat /\
      Author review <> EmptyString /\ (String.length (Author review) <= 100)%nat /\
      1 <= Rating review <= 5 ->
      Update m' review = Update m review) ->
   updateReviewHandler Request readIDParam m' r updated =
     updateReviewHandler Request readIDParam m r updated).
Proof.
  split.
  - intros Hins. unfold createReviewHandler.
    destruct (readIDParam r) as [id|] eqn:Hid; [| done].
    destruct created as [[[content author] rating]|]; [| done].
    cbv zeta.
    destruct (IsEmpty (ValidateReview validator.New _)) eqn:Hv; [| done].
    simpl. erewrite (Hins id); try done. by apply ValidateReview_empty.
  - intros Hget Hupd. unfold updateReviewHandler.
    destruct (readIDParam r) as [id|] eqn:Hid; [| done].
    rewrite Hget.
    destruct (Get m id id) as [err | old] eqn:Hold; [done |].
    destruct updated as [input|]; [| done].
    cbv zeta.
    destruct (IsEmpty (ValidateReview validator.New _)) eqn:Hv; [| done].
    simpl. erewrite (Hupd id old); try done. by apply ValidateReview_empty.
Qed.

End ReviewHandlers.

Lemma review_handlers_one_id_witness :
  let review :=
    data.mkReview 3 3 "fine" "ann" 4 0 0 1 in
  let m :=
    data.mkReviewModel (fun _ => inl data.ErrRecordNotFound)
      (fun _ _ => inr review) (fun _ => inl data.ErrRecordNotFound)
      (fun _ _ => None) (fun _ _ _ _ => None) in
  let m' :=
    data.mkReviewModel (fun _ => inl data.ErrRecordNotFound)
      (fun p q => if p =? q then inr review else inl data.ErrRecordNotFound)
      (fun _ => inl data.ErrRecordNotFound)
      (fun p q => if p =? q then None else Some data.ErrRecordNotFound)
      (fun _ _ _ _ => None) in
  api.displayReviewHandler Z Some m' 3 = api.displayReviewHandler Z Some m 3 /\
  api.deleteReviewHandler Z Some m' 3 = api.deleteReviewHandler Z Some m 3.
Proof.
  intros review m m'.
  apply (review_handlers_one_id Z Some m m' 3).
  - intros id. simpl. by rewrite Z.eqb_refl.
  - intros id. simpl. by rewrite Z.eqb_refl.
Defined.
